(** * irq-freeipa-mcp: the FreeIPA JSON-RPC client and the SSH fleet manager

    A shallow embedding of [FreeIPAClient] (session login, the [apiCall]
    primitive and typed methods on top of it), of [SSHManager] (single and
    multi host command execution, the SSSD cache and timeout operations, the
    connectivity tests), of the parameter validation and the per-user cache
    tool of the dispatcher, and of the configuration loader, followed by the
    properties established about them.

    Conventions of the embedding:
    - JS strings are [string]s (ASCII text); JS objects used as string-keyed
      maps ([Record<string, any>], [Map<string, _>]) are [gmap string _];
    - the integral JS numbers of the client (request id, HTTP status, fault
      code, exit code) are [Z]; the timeouts handed to the SSSD update, which
      the code tests with [Number.isInteger], are [JsNumber]s;
    - a method that mutates [this] takes the object and returns the new one;
    - what the network does is an argument: the reply of [axios.post] to a
      request, the run of an ssh2 channel for a connection;
    - an [async] function returns how its promise settles, next to the
      requests or connections it issued on the way. *)

From Stdlib Require Import QArith Ascii String.
From stdpp Require Import gmap strings list fin_maps pretty sorting.

Open Scope Z_scope.
Open Scope string_scope.

(** ** JavaScript values *)

(** The [any] values that travel as positional arguments, option values and
    result payloads. *)
#[warnings="-register-all"]
Inductive JsValue : Type :=
  | JUndefined
  | JNull
  | JBool (b : bool)
  | JNum (n : Z)
  | JStr (s : string)
  | JArr (items : list JsValue)
  | JObj (fields : gmap string JsValue).

(** [string[]] seen as a value. *)
Definition JStrings (l : list string) : JsValue := JArr (JStr <$> l).

(** [a || b] on strings: the empty string is falsy. *)
Definition str_or (a : option string) (b : string) : string :=
  match a with
  | Some s => if decide (s = "") then b else s
  | None => b
  end.

(** [s.split(sep)[0]] for a one character separator: the text before its
    first occurrence, the whole string when there is none. *)
Fixpoint split_head (sep : ascii) (s : string) : string :=
  match s with
  | EmptyString => EmptyString
  | String c rest =>
      if decide (c = sep) then EmptyString else String c (split_head sep rest)
  end.

(** [l.join(sep)]. *)
Fixpoint join (sep : string) (l : list string) : string :=
  match l with
  | [] => ""
  | [s] => s
  | s :: rest => s +:+ sep +:+ join sep rest
  end.

(** ** types.ts *)

Module FreeIPAError.
Record t := mk { message : string; code : option Z; name : string }.

(** [constructor(message, code?, errorName?)]:
    [this.name = errorName || 'FreeIPAError'; this.code = code]. *)
Definition new (message : string) (code : option Z) (errorName : option string) : t :=
  {| message := message; code := code; name := str_or errorName "FreeIPAError" |}.
End FreeIPAError.

(** The [error] member of a response body. *)
Module Fault.
Record t := mk { code : Z; message : string; name : string }.
End Fault.

(** The [result] member of a response body. *)
Module ResultBody.
Record t := mk {
  result : JsValue;
  summary : option string;
  count : option Z;
  truncated : option bool }.
End ResultBody.

Module FreeIPAResponse.
Record t := mk {
  result : option ResultBody.t;
  error : option Fault.t;
  id : Z }.
End FreeIPAResponse.

Module FreeIPARequest.
Record t := mk { method : string; params : list JsValue; id : Z }.
End FreeIPARequest.

(** ** The HTTP boundary (axios) *)

Inductive HttpBody :=
  | FormBody (fields : list (string * string))
  | JsonBody (payload : FreeIPARequest.t).

Module HttpRequest.
Record t := mk { url : string; body : HttpBody; headers : list (string * string) }.
End HttpRequest.

Module AxiosResponse.
Record t (D : Type) := mk {
  status : Z;
  set_cookie : option (list string);
  data : D }.
Arguments mk {D}.
Arguments status {D}.
Arguments set_cookie {D}.
Arguments data {D}.
End AxiosResponse.

(** What [client.post] throws: [error.message] and, when the server answered,
    [error.response] with whatever body it carried. *)
Module AxiosError.
Record t := mk {
  message : string;
  response : option (AxiosResponse.t (option FreeIPAResponse.t)) }.
End AxiosError.

Inductive AxiosOutcome (D : Type) :=
  | AxiosResolved (response : AxiosResponse.t D)
  | AxiosThrown (error : AxiosError.t).
Arguments AxiosResolved {D}.
Arguments AxiosThrown {D}.

(** ** FreeIPAClient *)

Module FreeIPAConfig.
Record t := mk { server : string; username : string; password : string }.
End FreeIPAConfig.

Module PartialConfig.
Record t := mk {
  server : option string;
  username : option string;
  password : option string }.
Definition none : t := mk None None None.
End PartialConfig.

Module FreeIPAClient.

Record t := mk {
  server : string;
  username : string;
  password : string;
  baseUrl : string;
  authenticated : bool;
  cookies : string;
  requestId : Z }.

Definition set_cookies (this : t) (v : string) : t :=
  mk (server this) (username this) (password this) (baseUrl this)
     (authenticated this) v (requestId this).

Definition set_authenticated (this : t) (v : bool) : t :=
  mk (server this) (username this) (password this) (baseUrl this)
     v (cookies this) (requestId this).

Definition set_requestId (this : t) (v : Z) : t :=
  mk (server this) (username this) (password this) (baseUrl this)
     (authenticated this) (cookies this) v.

(** An invocation: the object afterwards, the requests handed to
    [client.post], and how the returned promise settles. *)
Record Ran (A : Type) := ran {
  after : t;
  sent : list HttpRequest.t;
  settled : FreeIPAError.t + A }.
Arguments ran {A}.
Arguments after {A}.
Arguments sent {A}.
Arguments settled {A}.

Definition new (config : PartialConfig.t) (appConfig : FreeIPAConfig.t) : t :=
  let server := str_or (PartialConfig.server config) (FreeIPAConfig.server appConfig) in
  {| server := server;
     username := str_or (PartialConfig.username config) (FreeIPAConfig.username appConfig);
     password := str_or (PartialConfig.password config) (FreeIPAConfig.password appConfig);
     baseUrl := "https://" +:+ server +:+ "/ipa";
     authenticated := false;
     cookies := "";
     requestId := 0 |}.

Definition loginRequest (this : t) : HttpRequest.t :=
  {| HttpRequest.url := baseUrl this +:+ "/session/login_password";
     HttpRequest.body := FormBody [("user", username this); ("password", password this)];
     HttpRequest.headers :=
       [("Content-Type", "application/x-www-form-urlencoded");
        ("Accept", "text/plain");
        ("Referer", baseUrl this)] |}.

(** [async authenticate()]. *)
Definition authenticate (this : t)
    (post : HttpRequest.t → AxiosOutcome string) : Ran bool :=
  let request := loginRequest this in
  match post request with
  | AxiosResolved response =>
      if decide (AxiosResponse.status response = 200) then
        let this :=
          match AxiosResponse.set_cookie response with
          | Some setCookies =>
              set_cookies this (join "; " (split_head ";" <$> setCookies))
          | None => this
          end in
        ran (set_authenticated this true) [request] (inr true)
      else
        ran this [request]
          (inl (FreeIPAError.new
                  ("Authentication failed: HTTP " +:+ pretty (AxiosResponse.status response))
                  None None))
  | AxiosThrown error =>
      ran this [request]
        (inl (FreeIPAError.new
                ("Network error during authentication: " +:+ AxiosError.message error)
                None None))
  end.

(** The [params] member of the payload, [apiParams] in [apiCall]. *)
Definition apiParams (params : list JsValue) (options : gmap string JsValue)
    : list JsValue :=
  if decide (0 < length params)%nat
  then [JArr params; JObj options]
  else [JArr []; JObj options].

Definition apiRequest (this : t) (payload : FreeIPARequest.t) : HttpRequest.t :=
  {| HttpRequest.url := baseUrl this +:+ "/json";
     HttpRequest.body := JsonBody payload;
     HttpRequest.headers :=
       [("Content-Type", "application/json");
        ("Accept", "application/json");
        ("Referer", baseUrl this);
        ("Cookie", cookies this)] |}.

(** [error.response?.data?.error]. *)
Definition axiosFault (error : AxiosError.t) : option Fault.t :=
  response ← AxiosError.response error;
  data ← AxiosResponse.data response;
  FreeIPAResponse.error data.

(** [result.result?.result]. *)
Definition innerResult (result : FreeIPAResponse.t) : JsValue :=
  match FreeIPAResponse.result result with
  | Some r => ResultBody.result r
  | None => JUndefined
  end.

Definition faultError (e : Fault.t) : FreeIPAError.t :=
  FreeIPAError.new (Fault.message e) (Some (Fault.code e)) (Some (Fault.name e)).

(** [private async apiCall(method, params = [], options = {})]. *)
Definition apiCall (this : t)
    (post : HttpRequest.t → AxiosOutcome FreeIPAResponse.t)
    (method : string) (params : list JsValue) (options : gmap string JsValue)
    : Ran JsValue :=
  if negb (authenticated this) then
    ran this []
      (inl (FreeIPAError.new "Not authenticated. Call authenticate() first." None None))
  else
    let apiParams := apiParams params options in
    let this := set_requestId this (requestId this + 1) in
    let payload :=
      {| FreeIPARequest.method := method;
         FreeIPARequest.params := apiParams;
         FreeIPARequest.id := requestId this |} in
    let request := apiRequest this payload in
    ran this [request]
      match post request with
      | AxiosResolved response =>
          if decide (AxiosResponse.status response ≠ 200) then
            inl (FreeIPAError.new
                   ("API call failed: HTTP " +:+ pretty (AxiosResponse.status response))
                   None None)
          else
            let result := AxiosResponse.data response in
            match FreeIPAResponse.error result with
            | Some e => inl (faultError e)
            | None => inr (innerResult result)
            end
      | AxiosThrown error =>
          match axiosFault error with
          | Some apiError => inl (faultError apiError)
          | None =>
              inl (FreeIPAError.new
                     ("Network error during API call: " +:+ AxiosError.message error)
                     None None)
          end
      end.

(** [async groupAddMember(cn, users?, groups?, options = {})]. *)
Definition groupAddMember (this : t)
    (post : HttpRequest.t → AxiosOutcome FreeIPAResponse.t)
    (cn : string) (users groups : option (list string))
    (options : gmap string JsValue) : Ran JsValue :=
  let params := options in
  let params := match users with Some u => <["user" := JStrings u]> params | None => params end in
  let params := match groups with Some g => <["group" := JStrings g]> params | None => params end in
  apiCall this post "group_add_member" [JStr cn] params.

(** The statement [if (v) params.key = v] for an optional list argument:
    every array is truthy, only [undefined] skips the assignment. *)
Definition assignIf (key : string) (v : option (list string))
    (params : gmap string JsValue) : gmap string JsValue :=
  match v with
  | Some l => <[key := JStrings l]> params
  | None => params
  end.

(** [await this.apiCall(...); return true]. *)
Definition thenTrue (r : Ran JsValue) : Ran bool :=
  ran (after r) (sent r)
    match settled r with
    | inl e => inl e
    | inr _ => inr true
    end.

(** [async userFind(pattern = '', options = {})]. *)
Definition userFind (this : t) (post : HttpRequest.t → AxiosOutcome FreeIPAResponse.t)
    (pattern : option string) (options : gmap string JsValue) : Ran JsValue :=
  apiCall this post "user_find" [JStr (default "" pattern)] options.

(** [async userAdd(uid, givenname, sn, options = {})]: the named options are
    [{givenname, sn, ...options}]. *)
Definition userAdd (this : t) (post : HttpRequest.t → AxiosOutcome FreeIPAResponse.t)
    (uid givenname sn : string) (options : gmap string JsValue) : Ran JsValue :=
  apiCall this post "user_add" [JStr uid]
    (options ∪ <["givenname" := JStr givenname]> (<["sn" := JStr sn]> ∅)).

(** [async userDel(uid)]. *)
Definition userDel (this : t) (post : HttpRequest.t → AxiosOutcome FreeIPAResponse.t)
    (uid : string) : Ran bool :=
  thenTrue (apiCall this post "user_del" [JStr uid] ∅).

(** [async groupRemoveMember(cn, users?, groups?, options = {})]. *)
Definition groupRemoveMember (this : t)
    (post : HttpRequest.t → AxiosOutcome FreeIPAResponse.t)
    (cn : string) (users groups : option (list string))
    (options : gmap string JsValue) : Ran JsValue :=
  apiCall this post "group_remove_member" [JStr cn]
    (assignIf "group" groups (assignIf "user" users options)).

(** [async sudoruleAdd(cn, description = '', options = {})]. *)
Definition sudoruleAdd (this : t) (post : HttpRequest.t → AxiosOutcome FreeIPAResponse.t)
    (cn : string) (description : option string) (options : gmap string JsValue)
    : Ran JsValue :=
  apiCall this post "sudorule_add" [JStr cn]
    (options ∪ <["description" := JStr (default "" description)]> ∅).

(** [async sudoruleEnable(cn)]. *)
Definition sudoruleEnable (this : t)
    (post : HttpRequest.t → AxiosOutcome FreeIPAResponse.t) (cn : string) : Ran bool :=
  thenTrue (apiCall this post "sudorule_enable" [JStr cn] ∅).

(** [async sudoruleAddUser(cn, users?, groups?)]. *)
Definition sudoruleAddUser (this : t)
    (post : HttpRequest.t → AxiosOutcome FreeIPAResponse.t)
    (cn : string) (users groups : option (list string)) : Ran JsValue :=
  apiCall this post "sudorule_add_user" [JStr cn]
    (assignIf "group" groups (assignIf "user" users ∅)).

(** [async sudoruleAddHost(cn, hosts?, hostgroups?)]. *)
Definition sudoruleAddHost (this : t)
    (post : HttpRequest.t → AxiosOutcome FreeIPAResponse.t)
    (cn : string) (hosts hostgroups : option (list string)) : Ran JsValue :=
  apiCall this post "sudorule_add_host" [JStr cn]
    (assignIf "hostgroup" hostgroups (assignIf "host" hosts ∅)).

(** [async sudoruleAddAllowCommand(cn, commands?, commandgroups?)]. *)
Definition sudoruleAddAllowCommand (this : t)
    (post : HttpRequest.t → AxiosOutcome FreeIPAResponse.t)
    (cn : string) (commands commandgroups : option (list string)) : Ran JsValue :=
  apiCall this post "sudorule_add_allow_command" [JStr cn]
    (assignIf "sudocmdgroup" commandgroups (assignIf "sudocmd" commands ∅)).

(** [async hbacruleAddService(cn, services?, servicegroups?)]. *)
Definition hbacruleAddService (this : t)
    (post : HttpRequest.t → AxiosOutcome FreeIPAResponse.t)
    (cn : string) (services servicegroups : option (list string)) : Ran JsValue :=
  apiCall this post "hbacrule_add_service" [JStr cn]
    (assignIf "hbacsvcgroup" servicegroups (assignIf "hbacsvc" services ∅)).

(** [async serviceAllowCreateKeytab(principal, users?, groups?, hosts?, hostgroups?)]. *)
Definition serviceAllowCreateKeytab (this : t)
    (post : HttpRequest.t → AxiosOutcome FreeIPAResponse.t)
    (principal : string) (users groups hosts hostgroups : option (list string))
    : Ran JsValue :=
  apiCall this post "service_allow_create_keytab" [JStr principal]
    (assignIf "hostgroup" hostgroups
       (assignIf "host" hosts (assignIf "group" groups (assignIf "user" users ∅)))).

(** [async certRequest(csr, principal, profileId = 'caIPAserviceCert', options = {})]. *)
Definition certRequest (this : t) (post : HttpRequest.t → AxiosOutcome FreeIPAResponse.t)
    (csr principal : string) (profileId : option string)
    (options : gmap string JsValue) : Ran JsValue :=
  apiCall this post "cert_request" [JStr csr]
    (options ∪ <["principal" := JStr principal]>
                 (<["profile_id" := JStr (default "caIPAserviceCert" profileId)]> ∅)).

(** [async certRevoke(serialNumber, reason = 0, options = {})]. *)
Definition certRevoke (this : t) (post : HttpRequest.t → AxiosOutcome FreeIPAResponse.t)
    (serialNumber : string) (reason : option Z) (options : gmap string JsValue)
    : Ran JsValue :=
  apiCall this post "cert_revoke" [JStr serialNumber]
    (options ∪ <["revocation_reason" := JNum (default 0 reason)]> ∅).

(** [async certFind(options = {})]. *)
Definition certFind (this : t) (post : HttpRequest.t → AxiosOutcome FreeIPAResponse.t)
    (options : gmap string JsValue) : Ran JsValue :=
  apiCall this post "cert_find" [] options.

(** [async dnsrecordDel(dnszonename, idnsname)]. *)
Definition dnsrecordDel (this : t) (post : HttpRequest.t → AxiosOutcome FreeIPAResponse.t)
    (dnszonename idnsname : string) : Ran bool :=
  thenTrue (apiCall this post "dnsrecord_del" [JStr dnszonename; JStr idnsname] ∅).

(** [async ping()]. *)
Definition ping (this : t) (post : HttpRequest.t → AxiosOutcome FreeIPAResponse.t)
    : Ran JsValue :=
  apiCall this post "ping" [] ∅.

End FreeIPAClient.

(** ** JavaScript numbers and text helpers used by the SSH manager *)

(** A [number] that need not be integral: a finite value (every finite double
    is a rational), [NaN], or an infinity. *)
Inductive JsNumber :=
  | JsFinite (q : Q)
  | JsNaN
  | JsInfinity (negative : bool).

Definition JsInt (n : Z) : JsNumber := JsFinite (inject_Z n).

(** [Number.isInteger(x)]. *)
Definition Number_isInteger (x : JsNumber) : bool :=
  match x with
  | JsFinite q => Z.eqb (Qnum q mod Zpos (Qden q)) 0
  | JsNaN | JsInfinity _ => false
  end.

(** [x < y] on numbers: false as soon as one side is [NaN]. *)
Definition js_lt (x y : JsNumber) : bool :=
  match x, y with
  | JsNaN, _ | _, JsNaN => false
  | JsFinite p, JsFinite q => negb (Qle_bool q p)
  | JsFinite _, JsInfinity negative => negb negative
  | JsInfinity negative, JsFinite _ => negative
  | JsInfinity n1, JsInfinity n2 => n1 && negb n2
  end.

(** [p || d] on an optional port: [undefined] and [0] are falsy. *)
Definition num_or (p : option Z) (d : Z) : Z :=
  match p with
  | Some n => if decide (n = 0) then d else n
  | None => d
  end.

(** White space as [String.prototype.trim] sees it in ASCII text:
    TAB, LF, VT, FF, CR and the space. *)
Definition is_space (c : ascii) : bool :=
  let n := nat_of_ascii c in
  ((9 <=? n)%nat && (n <=? 13)%nat) || (n =? 32)%nat.

Fixpoint trimStart (s : string) : string :=
  match s with
  | String c rest => if is_space c then trimStart rest else s
  | EmptyString => EmptyString
  end.

Definition trim (s : string) : string :=
  String.rev (trimStart (String.rev (trimStart s))).

(** [s.replace(/\./g, '\\.')]. *)
Fixpoint escapeDots (s : string) : string :=
  match s with
  | EmptyString => EmptyString
  | String c rest =>
      if decide (c = "."%char) then "\." +:+ escapeDots rest
      else String c (escapeDots rest)
  end.

(** The character class [[a-zA-Z0-9._@-]]. *)
Definition shellSafeChar (c : ascii) : bool :=
  let n := nat_of_ascii c in
  ((97 <=? n)%nat && (n <=? 122)%nat)
  || ((65 <=? n)%nat && (n <=? 90)%nat)
  || ((48 <=? n)%nat && (n <=? 57)%nat)
  || (n =? 46)%nat || (n =? 95)%nat || (n =? 64)%nat || (n =? 45)%nat.

(** [/^[a-zA-Z0-9._@-]+$/.test(s)]: one or more characters of the class from
    the start of the input to its end. *)
Fixpoint classStar (s : string) : bool :=
  match s with
  | EmptyString => true
  | String c rest => shellSafeChar c && classStar rest
  end.

Definition SAFE_test (s : string) : bool :=
  match s with
  | EmptyString => false
  | String c rest => shellSafeChar c && classStar rest
  end.

(** ** ssh-manager.ts *)

Module SSHError.
Record t := mk { message : string; host : option string; exitCode : option Z }.
Definition new (message : string) (host : option string) : t := mk message host None.
End SSHError.

Module SSHCommandResult.
Record t := mk { stdout : string; stderr : string; exitCode : Z }.
End SSHCommandResult.

(** [validateShellSafe(value, name)]: returns [value] or throws. *)
Definition validateShellSafe (value name : string) : SSHError.t + string :=
  if decide (value = "") then
    inl (SSHError.new (name +:+ " is required") None)
  else if negb (SAFE_test value) then
    inl (SSHError.new (name +:+ " contains unsafe characters: " +:+ value) None)
  else inr value.

(** The argument of [conn.connect]. *)
Module ConnectConfig.
Record t := mk {
  host : string;
  port : Z;
  username : string;
  password : string;
  readyTimeout : Z }.
End ConnectConfig.

(** What ssh2 does with one connection on which [command] is to be run, up to
    the event that settles the promise of [executeCommand]:
    an ['error'] event of the connection, an [err] handed to the callback of
    [conn.exec], or the ['close'] of the stream after the data chunks of both
    output streams. *)
Inductive ChannelRun :=
  | ConnError (message : string)
  | ExecError (message : string)
  | StreamClosed (out err : list string) (code : Z).

Definition Channel : Type := ConnectConfig.t → string → ChannelRun.

Module SSHManager.

Record t := mk {
  username : string;
  password : string;
  defaultPort : Z;
  defaultTimeout : Z;
  sssdDomain : string }.

(** An invocation: the connections opened with [conn.connect], in order,
    and how the returned promise settles. *)
Record Did (A : Type) := did {
  connected : list ConnectConfig.t;
  settled : SSHError.t + A }.
Arguments did {A}.
Arguments connected {A}.
Arguments settled {A}.

(** [async executeCommand(host, command, port?)]. *)
Definition executeCommand (this : t) (ssh2 : Channel)
    (host command : string) (port : option Z) : Did SSHCommandResult.t :=
  let config :=
    {| ConnectConfig.host := host;
       ConnectConfig.port := num_or port (defaultPort this);
       ConnectConfig.username := username this;
       ConnectConfig.password := password this;
       ConnectConfig.readyTimeout := defaultTimeout this |} in
  did [config]
    match ssh2 config command with
    | ConnError message =>
        inl (SSHError.new ("SSH connection failed: " +:+ message) (Some host))
    | ExecError message =>
        inl (SSHError.new ("Failed to execute command: " +:+ message) (Some host))
    | StreamClosed out err code =>
        inr {| SSHCommandResult.stdout := trim (String.concat "" out);
               SSHCommandResult.stderr := trim (String.concat "" err);
               SSHCommandResult.exitCode := code |}
    end.

(** The record stored for a host whose call rejected. *)
Definition failureRecord (error : SSHError.t) : SSHCommandResult.t :=
  {| SSHCommandResult.stdout := "";
     SSHCommandResult.stderr := SSHError.message error;
     SSHCommandResult.exitCode := -1 |}.

(** The body of the [async (host) => { try ... catch ... }] callback once the
    call it awaits has settled: it writes the shared [results] map and its
    own promise fulfils. *)
Definition hostTask (call : SSHError.t + SSHCommandResult.t) (host : string)
    (results : gmap string SSHCommandResult.t)
    : gmap string SSHCommandResult.t * (SSHError.t + unit) :=
  match call with
  | inr result => (<[host := result]> results, inr ())
  | inl error => (<[host := failureRecord error]> results, inr ())
  end.

(** What [hostTask] stores for a call that settled as [call]. *)
Definition recorded (call : SSHError.t + SSHCommandResult.t) : SSHCommandResult.t :=
  match call with
  | inr result => result
  | inl error => failureRecord error
  end.

(** [Promise.all]: fulfils when every promise does, rejects with the first
    rejection otherwise. *)
Fixpoint Promise_all {A : Type} (promises : list (SSHError.t + A))
    : SSHError.t + list A :=
  match promises with
  | [] => inr []
  | inl e :: _ => inl e
  | inr a :: rest =>
      match Promise_all rest with
      | inl e => inl e
      | inr l => inr (a :: l)
      end
  end.

(** One continuation of the fan-out runs: the callback of call number [i]
    resumes after its [await]. *)
Definition resume (calls : list (string * Did SSHCommandResult.t))
    (state : gmap string SSHCommandResult.t * list (SSHError.t + unit)) (i : nat)
    : gmap string SSHCommandResult.t * list (SSHError.t + unit) :=
  match calls !! i with
  | Some (host, call) =>
      let '(results, p) := hostTask (settled call) host (fst state) in
      (results, (snd state ++ [p])%list)
  | None => state
  end.

(** [async executeOnMultipleHosts(hosts, command)].
    [hosts.map] starts the calls in the order of [hosts], call number [i]
    on the channel [ssh2 i]; their continuations then run in the order in
    which the calls settle, [schedule], a list of call numbers. *)
Definition executeOnMultipleHosts (this : t) (ssh2 : nat → Channel)
    (schedule : list nat) (hosts : list string) (command : string)
    : Did (gmap string SSHCommandResult.t) :=
  let calls :=
    imap (λ i host, (host, executeCommand this (ssh2 i) host command None)) hosts in
  let '(results, promises) := foldl (resume calls) (∅, []) schedule in
  did (mjoin ((λ c, connected (snd c)) <$> calls))
    match Promise_all promises with
    | inl e => inl e
    | inr _ => inr results
    end.

Section Timeouts.

(** How a template literal prints a number, [`${n}`]. *)
Variable Number_toString : JsNumber → string.

(** The check both timeout updates start with. *)
Definition checkTimeouts (entryCacheTimeout sudoTimeout : JsNumber)
    : SSHError.t + unit :=
  if negb (Number_isInteger entryCacheTimeout) || js_lt entryCacheTimeout (JsInt 0) then
    inl (SSHError.new "entryCacheTimeout must be a non-negative integer" None)
  else if negb (Number_isInteger sudoTimeout) || js_lt sudoTimeout (JsInt 0) then
    inl (SSHError.new "sudoTimeout must be a non-negative integer" None)
  else inr ().

Definition timeoutCommands (this : t) (entryCacheTimeout sudoTimeout : JsNumber)
    : string :=
  let escapedDomain := escapeDots (sssdDomain this) in
  join " && "
    [ "sudo sed -i '/^entry_cache_timeout/d' /etc/sssd/sssd.conf";
      "sudo sed -i '/^entry_cache_sudo_timeout/d' /etc/sssd/sssd.conf";
      "sudo sed -i '/\[domain\/" +:+ escapedDomain +:+ "\]/a entry_cache_timeout = "
        +:+ Number_toString entryCacheTimeout +:+ "' /etc/sssd/sssd.conf";
      "sudo sed -i '/\[domain\/" +:+ escapedDomain +:+ "\]/a entry_cache_sudo_timeout = "
        +:+ Number_toString sudoTimeout +:+ "' /etc/sssd/sssd.conf";
      "sudo systemctl restart sssd" ].

(** [async updateSSSDTimeout(host, entryCacheTimeout = 300, sudoTimeout = 300)]. *)
Definition updateSSSDTimeout (this : t) (ssh2 : Channel) (host : string)
    (entryCacheTimeout sudoTimeout : option JsNumber) : Did SSHCommandResult.t :=
  let entryCacheTimeout := default (JsInt 300) entryCacheTimeout in
  let sudoTimeout := default (JsInt 300) sudoTimeout in
  match checkTimeouts entryCacheTimeout sudoTimeout with
  | inl e => did [] (inl e)
  | inr _ =>
      executeCommand this ssh2 host
        (timeoutCommands this entryCacheTimeout sudoTimeout) None
  end.

(** [async updateSSSDTimeoutMultiple(hosts, entryCacheTimeout = 300, sudoTimeout = 300)]. *)
Definition updateSSSDTimeoutMultiple (this : t) (ssh2 : nat → Channel)
    (schedule : list nat) (hosts : list string)
    (entryCacheTimeout sudoTimeout : option JsNumber)
    : Did (gmap string SSHCommandResult.t) :=
  let entryCacheTimeout := default (JsInt 300) entryCacheTimeout in
  let sudoTimeout := default (JsInt 300) sudoTimeout in
  match checkTimeouts entryCacheTimeout sudoTimeout with
  | inl e => did [] (inl e)
  | inr _ =>
      executeOnMultipleHosts this ssh2 schedule hosts
        (timeoutCommands this entryCacheTimeout sudoTimeout)
  end.

End Timeouts.

(** [async invalidateUser(host, username)]. *)
Definition invalidateUser (this : t) (ssh2 : Channel) (host username : string)
    : Did SSHCommandResult.t :=
  match validateShellSafe username "username" with
  | inl e => did [] (inl e)
  | inr _ => executeCommand this ssh2 host ("sudo sss_cache -u " +:+ username) None
  end.

(** [async invalidateGroup(host, groupname)]. *)
Definition invalidateGroup (this : t) (ssh2 : Channel) (host groupname : string)
    : Did SSHCommandResult.t :=
  match validateShellSafe groupname "groupname" with
  | inl e => did [] (inl e)
  | inr _ => executeCommand this ssh2 host ("sudo sss_cache -g " +:+ groupname) None
  end.

(** The command of both cache clears:
    [[...].filter(Boolean).join(' && ')], the empty string being falsy. *)
Definition clearCommands (force : bool) : string :=
  join " && "
    (filter (λ c, c ≠ "")
       [ "sudo systemctl stop sssd";
         "sudo rm -rf /var/lib/sss/db/*";
         "sudo systemctl start sssd";
         if force then "sudo sss_cache -E" else "" ]).

(** [async clearSSSDCache(host, force = false)]. *)
Definition clearSSSDCache (this : t) (ssh2 : Channel) (host : string)
    (force : option bool) : Did SSHCommandResult.t :=
  executeCommand this ssh2 host (clearCommands (default false force)) None.

(** [async clearSSSDCacheMultiple(hosts, force = false)]. *)
Definition clearSSSDCacheMultiple (this : t) (ssh2 : nat → Channel)
    (schedule : list nat) (hosts : list string) (force : option bool)
    : Did (gmap string SSHCommandResult.t) :=
  executeOnMultipleHosts this ssh2 schedule hosts (clearCommands (default false force)).

(** [async checkSSSDStatus(host)]. *)
Definition checkSSSDStatus (this : t) (ssh2 : Channel) (host : string)
    : Did SSHCommandResult.t :=
  executeCommand this ssh2 host "sudo systemctl status sssd --no-pager" None.

(** [async checkSSSDStatusMultiple(hosts)]. *)
Definition checkSSSDStatusMultiple (this : t) (ssh2 : nat → Channel)
    (schedule : list nat) (hosts : list string)
    : Did (gmap string SSHCommandResult.t) :=
  executeOnMultipleHosts this ssh2 schedule hosts "sudo systemctl status sssd --no-pager".

(** [async getSSSDCacheStats(host)]. *)
Definition getSSSDCacheStats (this : t) (ssh2 : Channel) (host : string)
    : Did SSHCommandResult.t :=
  executeCommand this ssh2 host
    "sudo sssctl cache-expire -h || sudo ls -lh /var/lib/sss/db/" None.

(** The double quote character. *)
Definition dquote : ascii := ascii_of_nat 34.

(** The command of the connectivity test, [echo] of the quoted word [test]. *)
Definition echoTest : string :=
  "echo " +:+ String dquote ("test" +:+ String dquote "").

(** [async testConnectivity(host)]: the [try] returns the comparison, the
    [catch] returns [false]. *)
Definition testConnectivity (this : t) (ssh2 : Channel) (host : string) : Did bool :=
  let call := executeCommand this ssh2 host echoTest None in
  did (connected call)
    match settled call with
    | inr result =>
        inr (bool_decide (SSHCommandResult.exitCode result = 0)
             && bool_decide (trim (SSHCommandResult.stdout result) = "test"))
    | inl _ => inr false
    end.

(** One continuation of [testConnectivityMultiple]: the callback has no
    [try], a rejected test would reject its promise. *)
Definition resumeTest (calls : list (string * Did bool))
    (state : gmap string bool * list (SSHError.t + unit)) (i : nat)
    : gmap string bool * list (SSHError.t + unit) :=
  match calls !! i with
  | Some (host, call) =>
      match settled call with
      | inr isConnected => (<[host := isConnected]> (fst state), (snd state ++ [inr ()])%list)
      | inl e => (fst state, (snd state ++ [inl e])%list)
      end
  | None => state
  end.

(** [async testConnectivityMultiple(hosts)], the calls settling in the order
    [schedule]. *)
Definition testConnectivityMultiple (this : t) (ssh2 : nat → Channel)
    (schedule : list nat) (hosts : list string) : Did (gmap string bool) :=
  let calls := imap (λ i host, (host, testConnectivity this (ssh2 i) host)) hosts in
  let '(results, promises) := foldl (resumeTest calls) (∅, []) schedule in
  did (mjoin ((λ c, connected (snd c)) <$> calls))
    match Promise_all promises with
    | inl e => inl e
    | inr _ => inr results
    end.

End SSHManager.

(** ** Lifetimes of a client

    A client lives through a sequence of invocations, each with the reply the
    network gives to the request it posts. *)

Module Session.
Import FreeIPAClient.

Inductive Invocation :=
  | Authenticate (post : HttpRequest.t → AxiosOutcome string)
  | ApiCall (post : HttpRequest.t → AxiosOutcome FreeIPAResponse.t)
      (method : string) (params : list JsValue) (options : gmap string JsValue).

Inductive Event :=
  | Authenticated (r : Ran bool)
  | Called (r : Ran JsValue).

Definition invoke (this : t) (op : Invocation) : Event :=
  match op with
  | Authenticate post => Authenticated (authenticate this post)
  | ApiCall post method params options =>
      Called (apiCall this post method params options)
  end.

Definition clientAfter (ev : Event) : t :=
  match ev with
  | Authenticated r => after r
  | Called r => after r
  end.

Fixpoint run (this : t) (ops : list Invocation) : list Event * t :=
  match ops with
  | [] => ([], this)
  | op :: rest =>
      let ev := invoke this op in
      let '(evs, final) := run (clientAfter ev) rest in
      (ev :: evs, final)
  end.

(** Did this event see [authenticate()] return [true]? *)
Definition loggedIn (ev : Event) : bool :=
  match ev with
  | Authenticated r => match settled r with inr _ => true | inl _ => false end
  | Called _ => false
  end.

(** The [id] of a posted JSON-RPC payload. *)
Definition payloadId (request : HttpRequest.t) : option Z :=
  match HttpRequest.body request with
  | JsonBody payload => Some (FreeIPARequest.id payload)
  | FormBody _ => None
  end.

(** The ids [apiCall] put on the wire during the events, oldest first. *)
Definition requestIds (evs : list Event) : list Z :=
  evs ≫= λ ev,
    match ev with
    | Called r => omap payloadId (sent r)
    | Authenticated _ => []
    end.

End Session.

(** ** Sample data *)

Module Sample.
Import FreeIPAClient.

Definition appConfig : FreeIPAConfig.t :=
  FreeIPAConfig.mk "ipa.example.com" "admin" "secret".

Definition fresh : t := new PartialConfig.none appConfig.

(** A login answered with [status] and the given [Set-Cookie] headers. *)
Definition loginReply (status : Z) (setCookie : option (list string))
    : HttpRequest.t → AxiosOutcome string :=
  λ _, AxiosResolved (AxiosResponse.mk status setCookie "").

Definition twoCookies : list string := ["a=1; Path=/"; "b=2; HttpOnly"].

Definition loggedInClient : t :=
  after (authenticate fresh (loginReply 200 (Some twoCookies))).

Definition okBody (payload : JsValue) : FreeIPAResponse.t :=
  FreeIPAResponse.mk (Some (ResultBody.mk payload None None None)) None 1.

Definition faultBody (fault : Fault.t) : FreeIPAResponse.t :=
  FreeIPAResponse.mk None (Some fault) 1.

Definition rpcReply (status : Z) (body : FreeIPAResponse.t)
    : HttpRequest.t → AxiosOutcome FreeIPAResponse.t :=
  λ _, AxiosResolved (AxiosResponse.mk status None body).

Definition unreachable : HttpRequest.t → AxiosOutcome FreeIPAResponse.t :=
  λ _, AxiosThrown (AxiosError.mk "connect ECONNREFUSED" None).

Definition duplicateEntry : Fault.t := Fault.mk 4001 "already exists" "DuplicateEntry".
Definition namelessFault : Fault.t := Fault.mk 4001 "already exists" "".

(** The request a first [ping] of [loggedInClient] puts on the wire. *)
Definition pingRequest : HttpRequest.t :=
  apiRequest (set_requestId loggedInClient 1)
    (FreeIPARequest.mk "ping" [JArr []; JObj ∅] 1).

(** A lifetime with a failed call, two logins and three calls. *)
Definition busyLife : list Session.Invocation :=
  [ Session.ApiCall unreachable "ping" [] ∅;
    Session.Authenticate (loginReply 200 (Some twoCookies));
    Session.ApiCall (rpcReply 200 (okBody (JStr "pong"))) "ping" [] ∅;
    Session.ApiCall unreachable "user_show" [JStr "alice"] ∅;
    Session.Authenticate (loginReply 200 None);
    Session.ApiCall (rpcReply 200 (faultBody duplicateEntry)) "user_add" [JStr "alice"] ∅ ].

(** An options bag that itself names member groups. *)
Definition groupOption : gmap string JsValue := {[ "group" := JStrings ["admins"] ]}.

(** The request [groupAddMember('eng', ['alice'])] of [loggedInClient]
    puts on the wire, the options bag being [options]. *)
Definition engRequest (options : gmap string JsValue) : HttpRequest.t :=
  apiRequest (set_requestId loggedInClient 1)
    (FreeIPARequest.mk "group_add_member"
       [JArr [JStr "eng"]; JObj (<["user" := JStrings ["alice"]]> options)] 1).

(** A transport error of axios whose HTTP 401 response carries a fault. *)
Definition thrownFault : HttpRequest.t → AxiosOutcome FreeIPAResponse.t :=
  λ _, AxiosThrown
         (AxiosError.mk "Request failed with status code 401"
            (Some (AxiosResponse.mk 401 None (Some (faultBody duplicateEntry))))).

(** A lifetime that consists of one successful login. *)
Definition firstLogin : list Session.Invocation :=
  [ Session.Authenticate (loginReply 200 (Some twoCookies)) ].

(** A login refused with HTTP 401. *)
Definition refusedLogin : HttpRequest.t → AxiosOutcome string := loginReply 401 None.

(** Caller options that name a first name of their own. *)
Definition nicknameOption : gmap string JsValue := {[ "givenname" := JStr "Al" ]}.

(** A reply with HTTP 200 and a body that has neither fault nor result. *)
Definition emptyReply : HttpRequest.t → AxiosOutcome FreeIPAResponse.t :=
  rpcReply 200 (FreeIPAResponse.mk None None 1).

Definition failedLogins : list Session.Invocation :=
  [ Session.Authenticate (loginReply 401 None);
    Session.ApiCall unreachable "ping" [] ∅;
    Session.Authenticate (λ _, AxiosThrown (AxiosError.mk "timeout" None)) ].
End Sample.

Module Fleet.
Import SSHManager.

Definition manager : t := SSHManager.mk "svc" "secret" 22 10000 "example.com".

(** A channel on which [h1] runs the command and exits with 0 and every
    other host refuses the connection. *)
Definition oneUp : Channel :=
  λ config _,
    if decide (ConnectConfig.host config = "h1")
    then StreamClosed ["done"; " "] [] 0
    else ConnError "refused".

Definition twoHosts : list string := ["h1"; "h2"].

(** The same host requested twice. *)
Definition sameHostTwice : list string := ["h1"; "h1"].

(** Channels on which the first call runs the command and every later call
    is refused. *)
Definition firstOnly : nat → Channel :=
  λ i _ _,
    match i with
    | O => StreamClosed ["done"] [] 0
    | S _ => ConnError "refused"
    end.

(** Prints the integers the samples use. *)
Definition showInt (x : JsNumber) : string :=
  match x with
  | JsFinite q => pretty (Qnum q / Zpos (Qden q))
  | JsNaN => "NaN"
  | JsInfinity negative => if negative then "-Infinity" else "Infinity"
  end.

(** A channel on which every host runs the command and prints [test]. *)
Definition allUp : Channel := λ _ _, StreamClosed [" te"; "st "] [] 0.

Definition minusOne : JsNumber := JsInt (-1).
Definition oneAndAHalf : JsNumber := JsFinite (3 # 2).
End Fleet.

(** ** Vocabulary of the stated properties *)

(** A number that is a non-negative integer. *)
Definition NonNegativeInteger (x : JsNumber) : Prop :=
  ∃ n : Z, (0 ≤ n)%Z ∧
    match x with
    | JsFinite q => Qeq q (inject_Z n)
    | JsNaN | JsInfinity _ => False
    end.

(** Letters, digits, dot, hyphen, underscore and at-sign. *)
Definition identifierAlphabet : list ascii :=
  list_ascii_of_string
    "abcdefghijklmnopqrstuvwxyzABCDEFGHIJKLMNOPQRSTUVWXYZ0123456789.-_@".

(** A non-empty string over [identifierAlphabet]. *)
Definition SafeIdentifier (s : string) : Prop :=
  s ≠ "" ∧ Forall (λ c, c ∈ identifierAlphabet) (list_ascii_of_string s).

(** ** index.ts: validation of tool parameters and the per-user cache tool *)

Module Index.

(** The character class of [SAFE_HOSTNAME], [[a-zA-Z0-9._-]]. *)
Definition hostnameChar (c : ascii) : bool :=
  let n := nat_of_ascii c in
  ((97 <=? n)%nat && (n <=? 122)%nat)
  || ((65 <=? n)%nat && (n <=? 90)%nat)
  || ((48 <=? n)%nat && (n <=? 57)%nat)
  || (n =? 46)%nat || (n =? 95)%nat || (n =? 45)%nat.

Fixpoint hostnameStar (s : string) : bool :=
  match s with
  | EmptyString => true
  | String c rest => hostnameChar c && hostnameStar rest
  end.

(** [SAFE_HOSTNAME.test(s)] for [/^[a-zA-Z0-9._-]+$/]. *)
Definition SAFE_HOSTNAME_test (s : string) : bool :=
  match s with
  | EmptyString => false
  | String c rest => hostnameChar c && hostnameStar rest
  end.

(** [SAFE_IDENTIFIER.test(s)]: the pattern is the one of [validateShellSafe]. *)
Definition SAFE_IDENTIFIER_test (s : string) : bool := SAFE_test s.

(** [validateIdentifier(value: unknown, name)]: the message of the [Error]
    thrown, or the value. *)
Definition validateIdentifier (value : JsValue) (name : string) : string + string :=
  match value with
  | JStr s =>
      if decide (s = "") then inl (name +:+ " is required")
      else if negb (SAFE_IDENTIFIER_test s) then inl (name +:+ " contains invalid characters")
      else inr s
  | _ => inl (name +:+ " is required")
  end.

Section Hostnames.

(** How a template literal prints a value that is not a string. *)
Variable String_of : JsValue → string.

(** The [for (const h of value)] loop of [validateHostnames]: the strings
    seen, or the message for the first element that is refused. *)
Fixpoint checkHostnames (name : string) (value : list JsValue) : string + list string :=
  match value with
  | [] => inr []
  | JStr h :: rest =>
      if negb (SAFE_HOSTNAME_test h) then
        inl (name +:+ " contains invalid hostname: " +:+ h)
      else
        match checkHostnames name rest with
        | inl e => inl e
        | inr hs => inr (h :: hs)
        end
  | h :: _ => inl (name +:+ " contains invalid hostname: " +:+ String_of h)
  end.

(** [validateHostnames(value: unknown, name)]. *)
Definition validateHostnames (value : JsValue) (name : string) : string + list string :=
  match value with
  | JArr [] => inl (name +:+ " must be a non-empty array")
  | JArr items => checkHostnames name items
  | _ => inl (name +:+ " must be a non-empty array")
  end.

(** What the cache tools report for one host. *)
Record HostReport := report { success : bool; message : string }.

(** [results.set(key, v)] on a [Map], which keeps the keys in the order of
    their first insertion. *)
Fixpoint Map_set {V : Type} (key : string) (v : V) (m : list (string * V))
    : list (string * V) :=
  match m with
  | [] => [(key, v)]
  | (k, old) :: rest =>
      if decide (k = key) then (key, v) :: rest
      else (k, old) :: Map_set key v rest
  end.

(** The body of the [try] and of the [catch] in the loop of
    [freeipa_invalidate_user_cache], once [invalidateUser] has settled. *)
Definition invalidateReport (username : string)
    (call : SSHError.t + SSHCommandResult.t) : HostReport :=
  match call with
  | inr res =>
      {| success := bool_decide (SSHCommandResult.exitCode res = 0);
         message :=
           if decide (SSHCommandResult.exitCode res = 0)
           then "Cache invalidated for " +:+ username
           else if decide (SSHCommandResult.stderr res = "")
                then SSHCommandResult.stdout res
                else SSHCommandResult.stderr res |}
  | inl error => {| success := false; message := SSHError.message error |}
  end.

(** The [for (const host of params.hosts)] loop: one [invalidateUser] after
    the other, call number [i] on the channel [ssh2 i]. *)
Fixpoint invalidateLoop (ssh : SSHManager.t) (ssh2 : nat → Channel) (username : string)
    (i : nat) (hosts : list string) (results : list (string * HostReport))
    : list ConnectConfig.t * list (string * HostReport) :=
  match hosts with
  | [] => ([], results)
  | host :: rest =>
      let call := SSHManager.invalidateUser ssh (ssh2 i) host username in
      let results :=
        Map_set host (invalidateReport username (SSHManager.settled call)) results in
      let '(connected, results) := invalidateLoop ssh ssh2 username (S i) rest results in
      ((SSHManager.connected call ++ connected)%list, results)
  end.

(** The [result] object of [freeipa_invalidate_user_cache]. *)
Record InvalidateResult := invalidateResult {
  results : list (string * HostReport);
  username : string;
  totalHosts : nat }.

(** [params.key] on the arguments object of a tool call. *)
Definition param (params : gmap string JsValue) (key : string) : JsValue :=
  default JUndefined (params !! key).

(** The [case 'freeipa_invalidate_user_cache'] of the tool handler: the
    connections opened, and the message of the error thrown or the result. *)
Definition invalidateUserCache (ssh : SSHManager.t) (ssh2 : nat → Channel)
    (params : gmap string JsValue)
    : list ConnectConfig.t * (string + InvalidateResult) :=
  match validateHostnames (param params "hosts") "hosts" with
  | inl e => ([], inl e)
  | inr hosts =>
      match validateIdentifier (param params "username") "username" with
      | inl e => ([], inl e)
      | inr username =>
          let '(connected, results) := invalidateLoop ssh ssh2 username 0 hosts [] in
          (connected, inr (invalidateResult results username (length hosts)))
      end
  end.

End Hostnames.

End Index.

(** ** The configuration loader *)

Module ConfigLoader.

(** Truthiness of a value. *)
Definition truthy (v : JsValue) : bool :=
  match v with
  | JUndefined | JNull => false
  | JBool b => b
  | JNum n => negb (n =? 0)%Z
  | JStr s => negb (bool_decide (s = ""))
  | JArr _ | JObj _ => true
  end.

(** The own enumerable properties of a value, as rest destructuring and
    [Object.assign] see them: the fields of an object, the indexed items of
    an array, the indexed characters of a string, nothing for the rest. *)
Definition ownEnumerable (v : JsValue) : gmap string JsValue :=
  match v with
  | JObj fields => fields
  | JArr items => list_to_map (imap (λ i x, (pretty i, x)) items)
  | JStr s =>
      list_to_map (imap (λ i c, (pretty i, JStr (String c ""))) (list_ascii_of_string s))
  | _ => ∅
  end.

(** [v.key] for a [v] that is neither [null] nor [undefined] and a [key] that
    no prototype defines (the loader reads [freeipa], [ssh], [sssd], [debug],
    [domain], [testing] and [production]). *)
Definition member (v : JsValue) (key : string) : JsValue :=
  default JUndefined (ownEnumerable v !! key).

Record Sssd := mkSssd {
  domain : JsValue;
  testing : gmap string JsValue;
  production : gmap string JsValue }.

Record Config := mkConfig {
  freeipa : gmap string JsValue;
  ssh : gmap string JsValue;
  sssd : Sssd;
  debug : JsValue }.

Definition defaultConfig : Config :=
  {| freeipa :=
       <["server" := JStr "ipa.example.com"]>
         (<["username" := JStr "admin@EXAMPLE.COM"]>
            (<["password" := JStr ""]>
               (<["verifySSL" := JBool true]> (<["timeout" := JNum 30000]> ∅))));
     ssh :=
       <["username" := JStr "automation"]>
         (<["password" := JStr ""]>
            (<["port" := JNum 22]> (<["timeout" := JNum 20000]> ∅)));
     sssd :=
       {| domain := JStr "example.com";
          testing := <["entryCacheTimeout" := JNum 60]> (<["sudoTimeout" := JNum 120]> ∅);
          production := <["entryCacheTimeout" := JNum 300]> (<["sudoTimeout" := JNum 600]> ∅) |};
     debug := JBool false |}.

(** What [loadYamlConfig] finds at the path. *)
Inductive YamlFile :=
  | NoFile
  | Unreadable (message : string)
  | Parsed (document : JsValue).

(** [loadYamlConfig(configPath)]. *)
Definition loadYamlConfig (file : YamlFile) : JsValue :=
  match file with
  | Parsed document => document
  | NoFile | Unreadable _ => JObj ∅
  end.

(** [process.env.NAME] when it is truthy. *)
Definition envSet (env : gmap string string) (name : string) : option string :=
  match env !! name with
  | Some s => if decide (s = "") then None else Some s
  | None => None
  end.

(** The block [const { password, ...rest } = section; Object.assign(target, rest)],
    run when [section] is truthy. *)
Definition mergeSection (section : JsValue) (target : gmap string JsValue)
    : gmap string JsValue :=
  if truthy section then delete "password" (ownEnumerable section) ∪ target
  else target.

(** [Object.assign(target, source)] when [source] is truthy. *)
Definition assignSection (source : JsValue) (target : gmap string JsValue)
    : gmap string JsValue :=
  if truthy source then ownEnumerable source ∪ target else target.

(** [if (process.env.NAME) target.key = process.env.NAME]. *)
Definition fromEnv (env : gmap string string) (name key : string)
    (target : gmap string JsValue) : gmap string JsValue :=
  match envSet env name with
  | Some s => <[key := JStr s]> target
  | None => target
  end.

Inductive TypeError := CannotReadProperties (target : JsValue) (reading : string).

(** [mergeConfig(yamlConfig)], with the process environment [env]. *)
Definition mergeConfig (yamlConfig : JsValue) (env : gmap string string)
    : TypeError + Config :=
  match yamlConfig with
  | JUndefined | JNull => inl (CannotReadProperties yamlConfig "freeipa")
  | _ =>
      let config := defaultConfig in
      let freeipa := mergeSection (member yamlConfig "freeipa") (freeipa config) in
      let ssh := mergeSection (member yamlConfig "ssh") (ssh config) in
      let ysssd := member yamlConfig "sssd" in
      let sssd :=
        if truthy ysssd then
          {| domain :=
               if truthy (member ysssd "domain") then member ysssd "domain"
               else domain (sssd config);
             testing := assignSection (member ysssd "testing") (testing (sssd config));
             production :=
               assignSection (member ysssd "production") (production (sssd config)) |}
        else sssd config in
      let debug :=
        match member yamlConfig "debug" with
        | JUndefined => debug config
        | d => d
        end in
      let freeipa := fromEnv env "FREEIPA_PASSWORD" "password" freeipa in
      let ssh := fromEnv env "SSH_PASSWORD" "password" ssh in
      let freeipa := fromEnv env "FREEIPA_SERVER" "server" freeipa in
      let freeipa := fromEnv env "FREEIPA_USERNAME" "username" freeipa in
      let ssh := fromEnv env "SSH_USERNAME" "username" ssh in
      let sssd :=
        match envSet env "SSSD_DOMAIN" with
        | Some s => {| domain := JStr s; testing := testing sssd; production := production sssd |}
        | None => sssd
        end in
      let debug :=
        match envSet env "DEBUG" with
        | Some s => JBool (bool_decide (s = "true"))
        | None => debug
        end in
      inr {| freeipa := freeipa; ssh := ssh; sssd := sssd; debug := debug |}
  end.

(** [!target.key]. *)
Definition missing (target : gmap string JsValue) (key : string) : bool :=
  negb (truthy (default JUndefined (target !! key))).

(** The [errors] that [validateConfig(config)] collects and prints. *)
Definition validateConfig (config : Config) : list string :=
  ((if missing (freeipa config) "password"
    then ["FREEIPA_PASSWORD environment variable is required"] else [])
   ++ (if missing (ssh config) "password"
       then ["SSH_PASSWORD environment variable is required"] else [])
   ++ (if missing (freeipa config) "server"
       then ["FreeIPA server is not configured"] else [])
   ++ (if missing (freeipa config) "username"
       then ["FreeIPA username is not configured"] else [])
   ++ (if missing (ssh config) "username"
       then ["SSH username is not configured"] else []))%list.

(** [loadConfig()]: the configuration returned and the errors printed. *)
Definition loadConfig (file : YamlFile) (env : gmap string string)
    : TypeError + Config * list string :=
  match mergeConfig (loadYamlConfig file) env with
  | inl e => inl e
  | inr config => inr (config, validateConfig config)
  end.

End ConfigLoader.

(** A text that neither starts nor ends with white space. *)
Definition Trimmed (s : string) : Prop :=
  (∀ c rest, s = String c rest → is_space c = false) ∧
  (∀ front c, s = front +:+ String c "" → is_space c = false).

(** A non-empty string over letters, digits, dot, underscore and hyphen. *)
Definition SafeHostname (s : string) : Prop :=
  s ≠ "" ∧
  Forall (λ c, c ∈ list_ascii_of_string
                     "abcdefghijklmnopqrstuvwxyzABCDEFGHIJKLMNOPQRSTUVWXYZ0123456789._-")
    (list_ascii_of_string s).

(** ** Sample tool calls and environments *)

Module Desk.

(** Prints nothing useful: the samples hold strings only. *)
Definition noString : JsValue → string := λ _, "[object]".

Definition invalidateParams : gmap string JsValue :=
  <["hosts" := JStrings ["h1"; "h2"]]> (<["username" := JStr "alice"]> ∅).

Definition injectionParams : gmap string JsValue :=
  <["hosts" := JStrings ["h1"; "h2"]]> (<["username" := JStr "alice; rm -rf /"]> ∅).

(** A YAML document that tries to set both passwords and the server. *)
Definition yamlWithPasswords : JsValue :=
  JObj (<["freeipa" := JObj (<["password" := JStr "from-yaml"]>
                               (<["server" := JStr "ipa.corp.test"]> ∅))]>
          (<["ssh" := JObj (<["password" := JStr "from-yaml"]> ∅)]> ∅)).

Definition envWithPasswords : gmap string string :=
  <["FREEIPA_PASSWORD" := "from-env"]> (<["SSH_PASSWORD" := "ssh-env"]> ∅).

End Desk.

(** * Properties of the RPC client *)

Module ClientFacts.
Import FreeIPAClient Session.

Lemma apiCall_unauthenticated this post method params options :
  authenticated this = false →
  apiCall this post method params options =
    ran this []
      (inl (FreeIPAError.new "Not authenticated. Call authenticate() first." None None)).
Proof. intros H. unfold apiCall. by rewrite H. Qed.

Lemma apiCall_authenticated this post method params options :
  authenticated this = true →
  ∃ outcome,
    apiCall this post method params options =
      ran (set_requestId this (requestId this + 1))
        [apiRequest (set_requestId this (requestId this + 1))
           {| FreeIPARequest.method := method;
              FreeIPARequest.params := apiParams params options;
              FreeIPARequest.id := requestId this + 1 |}]
        outcome.
Proof. intros H. unfold apiCall. rewrite H. simpl. eauto. Qed.

Lemma apiParams_shape params options :
  apiParams params options = [JArr params; JObj options].
Proof.
  unfold apiParams. destruct (decide _) as [_|Hlen]; [done|].
  destruct params; [done | simpl in Hlen; lia].
Qed.



(** C3 (as amended): a login answered with HTTP 200 succeeds and sets the
    authenticated flag; when the response has [Set-Cookie] headers the
    stored cookie string becomes their [name=value] prefixes (the text
    before the first semicolon) joined by ["; "], on a first login and on
    every later one; when it has none the stored string is kept. *)
Theorem authenticate_cookies this post response :
  post (loginRequest this) = AxiosResolved response →
  AxiosResponse.status response = 200 →
  let r := authenticate this post in
  settled r = inr true ∧
  authenticated (after r) = true ∧
  cookies (after r) =
    match AxiosResponse.set_cookie response with
    | Some setCookies => join "; " (split_head ";" <$> setCookies)
    | None => cookies this
    end.
Proof.
  intros Hpost Hstatus. unfold authenticate. rewrite Hpost.
  destruct (decide _) as [_|]; [|done].
  by destruct (AxiosResponse.set_cookie response).
Qed.

Lemma authenticate_cookies_witness :
  let post := Sample.loginReply 200 (Some Sample.twoCookies) in
  let r := authenticate Sample.loggedInClient post in
  settled r = inr true ∧
  authenticated (after r) = true ∧
  cookies (after r) = "a=1; b=2".
Proof.
  exact (authenticate_cookies Sample.loggedInClient
           (Sample.loginReply 200 (Some Sample.twoCookies))
           (AxiosResponse.mk 200 (Some Sample.twoCookies) "")
           eq_refl eq_refl).
Defined.

(** C3 as stated fails: a re-authentication answered with HTTP 200 and no
    [Set-Cookie] header does not overwrite the stored cookie string with the
    join of the (zero) cookies of the response; the old string stays. *)
Lemma authenticate_cookies_counterexample :
  ¬ (∀ this post response,
       post (loginRequest this) = AxiosResolved response →
       AxiosResponse.status response = 200 →
       cookies (after (authenticate this post)) =
         join "; " (split_head ";" <$> default [] (AxiosResponse.set_cookie response))).
Proof.
  intros H.
  specialize (H Sample.loggedInClient (Sample.loginReply 200 None)
                (AxiosResponse.mk 200 None "") eq_refl eq_refl).
  vm_compute in H. discriminate H.
Qed.

Lemma run_keeps_logged_out ops : ∀ this,
  authenticated this = false →
  Forall (λ ev, loggedIn ev = false) (run this ops).1 →
  authenticated (run this ops).2 = false.
Proof.
  induction ops as [|op ops IH]; intros this Hauth Hev; [done|].
  simpl in *. destruct (run (clientAfter (invoke this op)) ops) as [evs final] eqn:Hrun.
  simpl in *. apply Forall_cons in Hev as [Hop Hevs].
  specialize (IH (clientAfter (invoke this op))). rewrite Hrun in IH.
  apply IH; [|done]. clear IH Hrun Hevs.
  destruct op as [post|post method params options]; simpl in *.
  - unfold authenticate in *. destruct (post _); [|done].
    destruct (decide _); [done|done].
  - by rewrite apiCall_unauthenticated.
Qed.

(** C4: as long as no [authenticate()] of a client has succeeded, whatever
    was invoked on it before, [apiCall] fails with the error "Not
    authenticated. Call authenticate() first." for every method and
    arguments, posts no request and leaves the client as it was. *)
Theorem apiCall_before_login config appConfig ops post method params options :
  Forall (λ ev, loggedIn ev = false) (run (new config appConfig) ops).1 →
  let this := (run (new config appConfig) ops).2 in
  let r := apiCall this post method params options in
  settled r =
    inl {| FreeIPAError.message := "Not authenticated. Call authenticate() first.";
           FreeIPAError.code := None;
           FreeIPAError.name := "FreeIPAError" |} ∧
  sent r = [] ∧
  after r = this.
Proof.
  intros Hev this r. subst r.
  rewrite apiCall_unauthenticated; [done|].
  by apply run_keeps_logged_out.
Qed.

Lemma apiCall_before_login_witness :
  Forall (λ ev, loggedIn ev = false)
    (run (new PartialConfig.none Sample.appConfig) Sample.failedLogins).1 ∧
  let this := (run (new PartialConfig.none Sample.appConfig) Sample.failedLogins).2 in
  let r := apiCall this Sample.unreachable "user_find" [JStr ""] ∅ in
  settled r =
    inl {| FreeIPAError.message := "Not authenticated. Call authenticate() first.";
           FreeIPAError.code := None;
           FreeIPAError.name := "FreeIPAError" |} ∧
  sent r = [] ∧
  after r = this.
Proof.
  assert (H : Forall (λ ev, loggedIn ev = false)
    (run (new PartialConfig.none Sample.appConfig) Sample.failedLogins).1)
    by (repeat constructor).
  split; [exact H|].
  exact (apiCall_before_login _ _ _ Sample.unreachable "user_find" [JStr ""] ∅ H).
Defined.

(** C5 (as amended): a fault object in the body of an HTTP 200 response, or
    in the body of the response that comes with a transport error of axios
    (a status outside 2xx), makes [apiCall] fail with an error that carries
    the fault's code and message, and the fault's name unless that name is
    empty (then the name is "FreeIPAError"), and no payload is returned; an
    HTTP 200 response without a fault object makes [apiCall] return
    [responseBody.result.result] ([undefined] when the outer [result] is
    absent); a response that axios resolves with another status fails with
    "API call failed: HTTP <status>" whatever its body holds. *)
Theorem apiCall_response_demux this post method params options request :
  request ∈ sent (apiCall this post method params options) →
  let surfaced (fault : Fault.t) : FreeIPAError.t + JsValue :=
    inl {| FreeIPAError.message := Fault.message fault;
           FreeIPAError.code := Some (Fault.code fault);
           FreeIPAError.name :=
             if decide (Fault.name fault = "") then "FreeIPAError"
             else Fault.name fault |} in
  (∀ response,
     post request = AxiosResolved response →
     AxiosResponse.status response = 200 →
     settled (apiCall this post method params options) =
       match FreeIPAResponse.error (AxiosResponse.data response) with
       | Some fault => surfaced fault
       | None =>
           inr match FreeIPAResponse.result (AxiosResponse.data response) with
               | Some body => ResultBody.result body
               | None => JUndefined
               end
       end) ∧
  (∀ error response body fault,
     post request = AxiosThrown error →
     AxiosError.response error = Some response →
     AxiosResponse.data response = Some body →
     FreeIPAResponse.error body = Some fault →
     settled (apiCall this post method params options) = surfaced fault) ∧
  (∀ response,
     post request = AxiosResolved response →
     AxiosResponse.status response ≠ 200 →
     settled (apiCall this post method params options) =
       inl {| FreeIPAError.message :=
                "API call failed: HTTP " +:+ pretty (AxiosResponse.status response);
              FreeIPAError.code := None;
              FreeIPAError.name := "FreeIPAError" |}).
Proof.
  destruct (authenticated this) eqn:Hauth.
  - unfold apiCall. rewrite Hauth. cbn [negb sent settled].
    intros ->%list_elem_of_singleton. cbv zeta. split; [|split].
    + intros response Hpost Hstatus. rewrite Hpost.
      destruct (decide _) as [|_]; [done|].
      by destruct (FreeIPAResponse.error _).
    + intros error response body fault Hpost Hresponse Hbody Hfault.
      rewrite Hpost. unfold axiosFault. rewrite Hresponse. cbn [mbind option_bind].
      rewrite Hbody. cbn [mbind option_bind]. by rewrite Hfault.
    + intros response Hpost Hstatus. rewrite Hpost.
      by destruct (decide _) as [_|].
  - rewrite apiCall_unauthenticated by done. cbn [sent]. by intros ?%elem_of_nil.
Qed.

Lemma apiCall_response_demux_witness :
  let answered := Sample.rpcReply 200 (Sample.faultBody Sample.duplicateEntry) in
  let surfaced : FreeIPAError.t + JsValue :=
    inl {| FreeIPAError.message := "already exists";
           FreeIPAError.code := Some 4001;
           FreeIPAError.name := "DuplicateEntry" |} in
  Sample.pingRequest ∈ sent (apiCall Sample.loggedInClient answered "ping" [] ∅) ∧
  settled (apiCall Sample.loggedInClient answered "ping" [] ∅) = surfaced ∧
  Sample.pingRequest ∈
    sent (apiCall Sample.loggedInClient Sample.thrownFault "ping" [] ∅) ∧
  settled (apiCall Sample.loggedInClient Sample.thrownFault "ping" [] ∅) = surfaced.
Proof.
  intros answered surfaced.
  assert (Hsent : Sample.pingRequest ∈
    sent (apiCall Sample.loggedInClient answered "ping" [] ∅))
    by apply list_elem_of_here.
  assert (Hthrown : Sample.pingRequest ∈
    sent (apiCall Sample.loggedInClient Sample.thrownFault "ping" [] ∅))
    by apply list_elem_of_here.
  split; [exact Hsent|]. split.
  - exact (proj1 (apiCall_response_demux Sample.loggedInClient answered "ping" [] ∅
                    Sample.pingRequest Hsent)
             (AxiosResponse.mk 200 None (Sample.faultBody Sample.duplicateEntry))
             eq_refl eq_refl).
  - split; [exact Hthrown|].
    exact (proj1 (proj2 (apiCall_response_demux Sample.loggedInClient
                           Sample.thrownFault "ping" [] ∅ Sample.pingRequest Hthrown))
             _ _ _ Sample.duplicateEntry eq_refl eq_refl eq_refl eq_refl).
Defined.

(** C5 as stated fails on three replies: a fault whose name is the empty
    string surfaces under the name "FreeIPAError"; a fault in the body of an
    HTTP 201 response surfaces as "API call failed: HTTP 201" without the
    fault's code; and an HTTP 201 response without a fault yields an error,
    not the inner result. *)
Lemma apiCall_response_demux_counterexample :
  let call post := settled (apiCall Sample.loggedInClient post "user_add" [JStr "alice"] ∅) in
  (∃ e, call (Sample.rpcReply 200 (Sample.faultBody Sample.namelessFault)) = inl e ∧
        FreeIPAError.name e ≠ Fault.name Sample.namelessFault) ∧
  (∃ e, call (Sample.rpcReply 201 (Sample.faultBody Sample.duplicateEntry)) = inl e ∧
        FreeIPAError.message e = "API call failed: HTTP 201" ∧
        FreeIPAError.code e ≠ Some (Fault.code Sample.duplicateEntry)) ∧
  (∃ e, call (Sample.rpcReply 201 (Sample.okBody (JStr "added"))) = inl e).
Proof.
  simpl. split; [|split]; eexists; (split; [reflexivity|]) || reflexivity.
  - vm_compute. discriminate.
  - split; [reflexivity|]. vm_compute. discriminate.
Qed.

Lemma StronglySorted_seqZ m (n : nat) : StronglySorted Z.lt (seqZ m (Z.of_nat n)).
Proof.
  revert m. induction n as [|n IH]; intros m.
  - rewrite seqZ_nil by lia. constructor.
  - rewrite seqZ_cons by lia. replace (Z.pred (Z.of_nat (S n))) with (Z.of_nat n) by lia.
    constructor; [apply IH|]. apply Forall_seqZ. lia.
Qed.

Lemma requestIds_cons ev evs :
  requestIds (ev :: evs) =
    (match ev with
     | Called r => omap payloadId (sent r)
     | Authenticated _ => []
     end ++ requestIds evs)%list.
Proof. reflexivity. Qed.

Lemma run_cons this op ops :
  run this (op :: ops) =
    (invoke this op :: (run (clientAfter (invoke this op)) ops).1,
     (run (clientAfter (invoke this op)) ops).2).
Proof. simpl. by destruct (run _ ops). Qed.

(** The ids put on the wire over a lifetime count up from the counter the
    client started with, and the counter ends on the last of them. *)
Lemma run_requestIds ops : ∀ this,
  requestIds (run this ops).1 =
    seqZ (requestId this + 1) (Z.of_nat (length (requestIds (run this ops).1))) ∧
  requestId (run this ops).2 =
    requestId this + Z.of_nat (length (requestIds (run this ops).1)).
Proof.
  induction ops as [|op ops IH]; intros this.
  { simpl. split; [done | lia]. }
  rewrite run_cons. cbn [fst snd]. rewrite requestIds_cons.
  destruct (IH (clientAfter (invoke this op))) as [IHids IHfinal].
  set (evs := (run (clientAfter (invoke this op)) ops).1) in *.
  set (final := (run (clientAfter (invoke this op)) ops).2) in *.
  clearbody evs final. clear IH.
  destruct op as [post|post method params options]; cbn [invoke clientAfter] in *.
  - assert (Hid : requestId (after (authenticate this post)) = requestId this).
    { unfold authenticate. destruct (post _); [|done].
      destruct (decide _); [|done].
      by destruct (AxiosResponse.set_cookie _). }
    rewrite Hid in *. done.
  - destruct (authenticated this) eqn:Hauth.
    + destruct (apiCall_authenticated this post method params options Hauth)
        as [outcome Hcall]. rewrite Hcall in *. cbn [after sent] in *.
      cbn [omap list_omap payloadId apiRequest HttpRequest.body
           FreeIPARequest.id app length] in *.
      rewrite Nat2Z.inj_succ, seqZ_cons by lia.
      replace (Z.pred (Z.succ (Z.of_nat (length (requestIds evs)))))
        with (Z.of_nat (length (requestIds evs))) by lia.
      cbn [set_requestId requestId] in *.
      split; [|lia]. f_equal. exact IHids.
    + rewrite apiCall_unauthenticated in * by done. cbn [after sent] in *. done.
Qed.

(** C6: over the lifetime of a client the request ids that [apiCall] assigns
    are 1, 2, 3, ... in the order of the calls: strictly increasing, the
    first one 1. Whatever happened before, a call on the client once it is
    authenticated posts one request, whose id is one more than the number of
    ids assigned so far, 1 for the first call, and greater than every id
    assigned before; the counter then stands at that id. *)
Theorem requestIds_increasing config appConfig ops :
  let life := run (new config appConfig) ops in
  let ids := requestIds life.1 in
  ids = seqZ 1 (Z.of_nat (length ids)) ∧
  StronglySorted Z.lt ids ∧
  (ids = [] ∨ head ids = Some 1) ∧
  (∀ post method params options,
     authenticated life.2 = true →
     ∃ request payload,
       sent (apiCall life.2 post method params options) = [request] ∧
       HttpRequest.body request = JsonBody payload ∧
       FreeIPARequest.id payload = 1 + Z.of_nat (length ids) ∧
       Forall (λ earlier, earlier < FreeIPARequest.id payload) ids ∧
       requestId (after (apiCall life.2 post method params options)) =
         FreeIPARequest.id payload).
Proof.
  intros life ids. subst life ids.
  destruct (run_requestIds ops (new config appConfig)) as [Hids Hfinal].
  cbn [new requestId] in Hids, Hfinal. rewrite Z.add_0_l in Hids, Hfinal.
  split; [exact Hids|]. split; [|split].
  - rewrite Hids. apply StronglySorted_seqZ.
  - destruct (requestIds _) as [|i ids]; [by left|]. right.
    rewrite seqZ_cons in Hids by (simpl; lia). by injection Hids as -> _.
  - intros post method params options Hauth.
    destruct (apiCall_authenticated _ post method params options Hauth)
      as [outcome ->].
    eexists _, _. split; [reflexivity|]. split; [reflexivity|].
    cbn [FreeIPARequest.id after set_requestId requestId]. rewrite Hfinal.
    split; [lia|]. split; [|done].
    rewrite Hids at 1. apply Forall_seqZ. lia.
Qed.

Lemma requestIds_increasing_witness :
  authenticated (run (new PartialConfig.none Sample.appConfig) Sample.firstLogin).2 = true ∧
  requestIds (run (new PartialConfig.none Sample.appConfig) Sample.firstLogin).1 = [] ∧
  ∃ request payload,
    sent (apiCall (run (new PartialConfig.none Sample.appConfig) Sample.firstLogin).2
            Sample.unreachable "ping" [] ∅) = [request] ∧
    HttpRequest.body request = JsonBody payload ∧
    FreeIPARequest.id payload = 1.
Proof.
  split; [reflexivity|]. split; [reflexivity|].
  destruct (requestIds_increasing PartialConfig.none Sample.appConfig Sample.firstLogin)
    as (_ & _ & _ & Hnext).
  destruct (Hnext Sample.unreachable "ping" [] ∅ eq_refl)
    as (request & payload & Hsent & Hbody & Hid & _).
  exists request, payload. split; [exact Hsent|]. split; [exact Hbody | exact Hid].
Defined.

(** A lifetime with two logins: the three posted calls carry 1, 2 and 3. *)
Example requestIds_busyLife :
  requestIds (run Sample.fresh Sample.busyLife).1 = [1; 2; 3].
Proof. reflexivity. Qed.

(** C10: an invocation of [apiCall] changes nothing of the client but the
    request counter: on an authenticated client the counter is one more than
    before, whether the call then returns or fails, and every other field is
    as before; an unauthenticated client is left exactly as it was. Cookie
    string and authenticated flag stay. *)
Theorem apiCall_frame this post method params options :
  let r := apiCall this post method params options in
  cookies (after r) = cookies this ∧
  authenticated (after r) = authenticated this ∧
  after r =
    (if authenticated this then set_requestId this (requestId this + 1) else this) ∧
  requestId (after r) =
    (if authenticated this then requestId this + 1 else requestId this) ∧
  server (after r) = server this ∧
  username (after r) = username this ∧
  password (after r) = password this ∧
  baseUrl (after r) = baseUrl this ∧
  (authenticated this = true →
   requestId (after r) = requestId this + 1 ∧ length (sent r) = 1%nat) ∧
  (authenticated this = false → after r = this ∧ sent r = []).
Proof.
  simpl. unfold apiCall. destruct (authenticated this) eqn:E; simpl;
    repeat split; try done; intros ?; try done; by split.
Qed.

Lemma apiCall_frame_witness :
  let failed := apiCall Sample.loggedInClient Sample.unreachable "ping" [] ∅ in
  let returned :=
    apiCall Sample.loggedInClient (Sample.rpcReply 200 (Sample.okBody (JStr "pong")))
      "ping" [] ∅ in
  let refused := apiCall Sample.fresh Sample.unreachable "ping" [] ∅ in
  authenticated Sample.loggedInClient = true ∧
  authenticated Sample.fresh = false ∧
  (∃ e, settled failed = inl e) ∧
  requestId (after failed) = 1 ∧
  cookies (after failed) = "a=1; b=2" ∧
  settled returned = inr (JStr "pong") ∧
  requestId (after returned) = 1 ∧
  after refused = Sample.fresh.
Proof.
  intros failed returned refused.
  destruct (apiCall_frame Sample.loggedInClient Sample.unreachable "ping" [] ∅)
    as (Hcookies & _ & _ & _ & _ & _ & _ & _ & Hfailed & _).
  destruct (apiCall_frame Sample.loggedInClient
              (Sample.rpcReply 200 (Sample.okBody (JStr "pong"))) "ping" [] ∅)
    as (_ & _ & _ & _ & _ & _ & _ & _ & Hreturned & _).
  destruct (apiCall_frame Sample.fresh Sample.unreachable "ping" [] ∅)
    as (_ & _ & _ & _ & _ & _ & _ & _ & _ & Hrefused).
  split; [reflexivity|]. split; [reflexivity|].
  split; [eexists; reflexivity|].
  split; [exact (proj1 (Hfailed eq_refl))|].
  split; [exact Hcookies|].
  split; [reflexivity|].
  split; [exact (proj1 (Hreturned eq_refl))|].
  exact (proj1 (Hrefused eq_refl)).
Defined.

(** With a users list and no groups, the named options are the caller's
    options bag with [user] bound to the list; [groupAddMember] adds no
    [group] key of its own. *)
Lemma groupAddMember_spreads_options this post cn users options :
  authenticated this = true →
  ∃ request,
    sent (groupAddMember this post cn (Some users) None options) = [request] ∧
    HttpRequest.body request =
      JsonBody {| FreeIPARequest.method := "group_add_member";
                  FreeIPARequest.params :=
                    [JArr [JStr cn]; JObj (<["user" := JStrings users]> options)];
                  FreeIPARequest.id := requestId this + 1 |}.
Proof.
  intros Hauth. unfold groupAddMember.
  destruct (apiCall_authenticated this post "group_add_member" [JStr cn]
              (<["user" := JStrings users]> options) Hauth) as [outcome ->].
  eexists. split; [reflexivity|].
  cbn [apiRequest HttpRequest.body]. by rewrite apiParams_shape.
Qed.

(** C9: a call of [groupAddMember] with a users list and the groups left
    out, [groupAddMember(cn, users)], where the options bag is therefore the
    default [{}], posts one request whose named options bind [user] to the
    list and have no [group] key: the mapping is exactly [{user: users}]. *)
Theorem groupAddMember_omitted_groups this post cn users :
  authenticated this = true →
  ∃ request named,
    sent (groupAddMember this post cn (Some users) None ∅) = [request] ∧
    HttpRequest.body request =
      JsonBody {| FreeIPARequest.method := "group_add_member";
                  FreeIPARequest.params := [JArr [JStr cn]; JObj named];
                  FreeIPARequest.id := requestId this + 1 |} ∧
    named !! "user" = Some (JStrings users) ∧
    named !! "group" = None ∧
    dom named = {[ "user" ]} ∧
    named = {[ "user" := JStrings users ]}.
Proof.
  intros Hauth.
  destruct (groupAddMember_spreads_options this post cn users ∅ Hauth)
    as (request & Hsent & Hbody).
  exists request, (<["user" := JStrings users]> ∅).
  split; [exact Hsent|]. split; [exact Hbody|].
  split; [apply lookup_insert_eq|].
  split; [by rewrite lookup_insert_ne|].
  split; [|done].
  by rewrite dom_insert_L, dom_empty_L, (right_id_L ∅ (∪)).
Qed.

Lemma groupAddMember_omitted_groups_witness :
  authenticated Sample.loggedInClient = true ∧
  ∃ named,
    sent (groupAddMember Sample.loggedInClient Sample.unreachable
            "eng" (Some ["alice"]) None ∅) = [Sample.engRequest ∅] ∧
    HttpRequest.body (Sample.engRequest ∅) =
      JsonBody {| FreeIPARequest.method := "group_add_member";
                  FreeIPARequest.params := [JArr [JStr "eng"]; JObj named];
                  FreeIPARequest.id := 1 |} ∧
    named !! "user" = Some (JStrings ["alice"]) ∧
    named !! "group" = None.
Proof.
  split; [reflexivity|].
  destruct (groupAddMember_omitted_groups Sample.loggedInClient Sample.unreachable
              "eng" ["alice"] eq_refl)
    as (request & named & Hsent & Hbody & Huser & Hgroup & _).
  exists named.
  assert (Hrequest : request = Sample.engRequest ∅).
  { assert (H : [request] = [Sample.engRequest ∅]) by (rewrite <- Hsent; reflexivity).
    by injection H. }
  subst request.
  split; [exact Hsent|]. split; [exact Hbody|]. split; [exact Huser | exact Hgroup].
Defined.

End ClientFacts.

(** * Properties of the SSH manager *)

Module FleetFacts.
Import SSHManager.

Lemma shellSafeChar_alphabet c :
  shellSafeChar c = bool_decide (c ∈ identifierAlphabet).
Proof. by destruct c as [[] [] [] [] [] [] [] []]; vm_compute. Qed.

Lemma classStar_alphabet s :
  classStar s = true ↔ Forall (λ c, c ∈ identifierAlphabet) (list_ascii_of_string s).
Proof.
  induction s as [|c s IH]; simpl.
  - split; [constructor | done].
  - rewrite andb_true_iff, Forall_cons, IH, shellSafeChar_alphabet, bool_decide_eq_true.
    done.
Qed.

Lemma SAFE_test_spec s : SAFE_test s = true ↔ SafeIdentifier s.
Proof.
  unfold SafeIdentifier. destruct s as [|c s].
  - simpl. split; [done | by intros [? _]].
  - change (SAFE_test (String c s)) with (classStar (String c s)).
    rewrite classStar_alphabet. split; [by intros ? | by intros [_ ?]].
Qed.

Lemma validateShellSafe_accepts value name :
  SafeIdentifier value → validateShellSafe value name = inr value.
Proof.
  intros Hsafe. unfold validateShellSafe.
  destruct (decide _) as [->|_]; [by destruct Hsafe|].
  apply SAFE_test_spec in Hsafe. by rewrite Hsafe.
Qed.

Lemma validateShellSafe_rejects value name :
  ¬ SafeIdentifier value → ∃ e, validateShellSafe value name = inl e.
Proof.
  intros Hunsafe. unfold validateShellSafe.
  destruct (decide _); [by eexists|].
  destruct (SAFE_test value) eqn:Htest; [|by eexists].
  by apply SAFE_test_spec in Htest.
Qed.

(** C8: [validateShellSafe] returns its argument exactly for the non-empty
    strings over letters, digits, dot, hyphen, underscore and at-sign, and
    throws for every other string; [invalidateUser] and [invalidateGroup]
    then reject without opening a connection, and for an accepted
    identifier run the command with the identifier appended. *)
Theorem validateShellSafe_allow_list :
  (∀ value name, validateShellSafe value name = inr value ↔ SafeIdentifier value) ∧
  (∀ value name, ¬ SafeIdentifier value → ∃ e, validateShellSafe value name = inl e) ∧
  (∀ this ssh2 host value, ¬ SafeIdentifier value →
     (∃ e, invalidateUser this ssh2 host value = did [] (inl e)) ∧
     (∃ e, invalidateGroup this ssh2 host value = did [] (inl e))) ∧
  (∀ this ssh2 host value, SafeIdentifier value →
     invalidateUser this ssh2 host value =
       executeCommand this ssh2 host ("sudo sss_cache -u " +:+ value) None ∧
     invalidateGroup this ssh2 host value =
       executeCommand this ssh2 host ("sudo sss_cache -g " +:+ value) None) ∧
  validateShellSafe "alice.smith@EXAMPLE.COM" "username" = inr "alice.smith@EXAMPLE.COM" ∧
  (∃ e, validateShellSafe "alice; rm -rf /" "username" = inl e).
Proof.
  split; [|split; [|split; [|split; [|split]]]].
  - intros value name. split; [|apply validateShellSafe_accepts].
    intros Hok. destruct (decide (SAFE_test value = true)) as [Ht|Ht].
    + by apply SAFE_test_spec.
    + unfold validateShellSafe in Hok. destruct (decide _); [done|].
      by destruct (SAFE_test value).
  - apply validateShellSafe_rejects.
  - intros this ssh2 host value Hunsafe. unfold invalidateUser, invalidateGroup.
    destruct (validateShellSafe_rejects value "username" Hunsafe) as [e1 ->].
    destruct (validateShellSafe_rejects value "groupname" Hunsafe) as [e2 ->].
    by split; eexists.
  - intros this ssh2 host value Hsafe. unfold invalidateUser, invalidateGroup.
    by rewrite !validateShellSafe_accepts.
  - reflexivity.
  - by eexists.
Qed.

Lemma validateShellSafe_allow_list_witness :
  SafeIdentifier "alice.smith@EXAMPLE.COM" ∧
  ¬ SafeIdentifier "alice; rm -rf /" ∧
  (∃ e, invalidateUser Fleet.manager Fleet.oneUp "h1" "alice; rm -rf /" = did [] (inl e)) ∧
  connected (invalidateUser Fleet.manager Fleet.oneUp "h1" "alice.smith@EXAMPLE.COM")
    = [ConnectConfig.mk "h1" 22 "svc" "secret" 10000].
Proof.
  destruct validateShellSafe_allow_list as (Hiff & _ & Hreject & Haccept & _ & _).
  assert (Hgood : SafeIdentifier "alice.smith@EXAMPLE.COM")
    by (apply (Hiff _ "username"); reflexivity).
  assert (Hbad : ¬ SafeIdentifier "alice; rm -rf /")
    by (intros Hs; apply (Hiff _ "username") in Hs; discriminate Hs).
  split; [exact Hgood|]. split; [exact Hbad|]. split.
  - exact (proj1 (Hreject Fleet.manager Fleet.oneUp "h1" _ Hbad)).
  - rewrite (proj1 (Haccept Fleet.manager Fleet.oneUp "h1" _ Hgood)). reflexivity.
Defined.

Lemma nonNegative_check x :
  Number_isInteger x && negb (js_lt x (JsInt 0)) = true ↔ NonNegativeInteger x.
Proof.
  unfold NonNegativeInteger. destruct x as [[a b]| |negative]; simpl.
  - unfold Qle_bool, Qeq. simpl.
    rewrite andb_true_iff, negb_involutive, Z.eqb_eq, Z.leb_le. split.
    + intros [Hmod Hpos]. exists (a / Z.pos b). split.
      * apply Z.div_pos; lia.
      * apply Z.div_exact in Hmod; lia.
    + intros (n & Hn & Heq). split.
      * replace a with (n * Z.pos b) by lia. apply Z_mod_mult.
      * nia.
  - split; [done | by intros (? & _ & [])].
  - split; [done | by intros (? & _ & [])].
Qed.

Lemma checkTimeouts_rejects entry sudo :
  ¬ NonNegativeInteger entry ∨ ¬ NonNegativeInteger sudo →
  checkTimeouts entry sudo =
    inl (SSHError.new "entryCacheTimeout must be a non-negative integer" None) ∨
  checkTimeouts entry sudo =
    inl (SSHError.new "sudoTimeout must be a non-negative integer" None).
Proof.
  intros Hbad. unfold checkTimeouts.
  destruct (negb (Number_isInteger entry) || js_lt entry (JsInt 0)) eqn:He; [by left|].
  destruct (negb (Number_isInteger sudo) || js_lt sudo (JsInt 0)) eqn:Hs; [by right|].
  exfalso. apply orb_false_iff in He as [He1 He2], Hs as [Hs1 Hs2].
  apply negb_false_iff in He1, Hs1.
  destruct Hbad as [Hbad|Hbad]; apply Hbad, nonNegative_check.
  - by rewrite He1, He2.
  - by rewrite Hs1, Hs2.
Qed.

(** C7: when the entry cache timeout or the sudo timeout (each 300 when left
    out) is not a non-negative integer, [updateSSSDTimeout] and
    [updateSSSDTimeoutMultiple] both fail with the validation error of the
    offending value and open no connection. *)
Theorem updateSSSDTimeout_validates toString this entryCacheTimeout sudoTimeout :
  ¬ NonNegativeInteger (default (JsInt 300) entryCacheTimeout) ∨
  ¬ NonNegativeInteger (default (JsInt 300) sudoTimeout) →
  ∃ e,
    (SSHError.message e = "entryCacheTimeout must be a non-negative integer" ∨
     SSHError.message e = "sudoTimeout must be a non-negative integer") ∧
    (∀ ssh2 host,
       updateSSSDTimeout toString this ssh2 host entryCacheTimeout sudoTimeout
         = did [] (inl e)) ∧
    (∀ ssh2 schedule hosts,
       updateSSSDTimeoutMultiple toString this ssh2 schedule hosts
         entryCacheTimeout sudoTimeout = did [] (inl e)).
Proof.
  intros Hbad. unfold updateSSSDTimeout, updateSSSDTimeoutMultiple.
  destruct (checkTimeouts_rejects _ _ Hbad) as [-> | ->]; eexists;
    (split; [|split; reflexivity]); [by left | by right].
Qed.

Lemma updateSSSDTimeout_validates_witness :
  (¬ NonNegativeInteger (default (JsInt 300) (Some Fleet.minusOne)) ∨
   ¬ NonNegativeInteger (default (JsInt 300) None)) ∧
  (¬ NonNegativeInteger (default (JsInt 300) None) ∨
   ¬ NonNegativeInteger (default (JsInt 300) (Some Fleet.oneAndAHalf))) ∧
  (∃ e, updateSSSDTimeout Fleet.showInt Fleet.manager Fleet.oneUp "h1"
          (Some Fleet.minusOne) None = did [] (inl e)) ∧
  (∃ e, updateSSSDTimeoutMultiple Fleet.showInt Fleet.manager (λ _, Fleet.oneUp)
          [0; 1]%nat Fleet.twoHosts None (Some Fleet.oneAndAHalf) = did [] (inl e)).
Proof.
  assert (H1 : ¬ NonNegativeInteger (default (JsInt 300) (Some Fleet.minusOne)) ∨
               ¬ NonNegativeInteger (default (JsInt 300) None)).
  { left. intros H%nonNegative_check. discriminate H. }
  assert (H2 : ¬ NonNegativeInteger (default (JsInt 300) None) ∨
               ¬ NonNegativeInteger (default (JsInt 300) (Some Fleet.oneAndAHalf))).
  { right. intros H%nonNegative_check. discriminate H. }
  split; [exact H1|]. split; [exact H2|]. split.
  - destruct (updateSSSDTimeout_validates Fleet.showInt Fleet.manager _ _ H1)
      as (e & _ & Hone & _).
    exists e. apply Hone.
  - destruct (updateSSSDTimeout_validates Fleet.showInt Fleet.manager _ _ H2)
      as (e & _ & _ & Hmany).
    exists e. apply Hmany.
Defined.

(** Valid timeouts do reach the host: one connection, the sed script. *)
Lemma updateSSSDTimeout_runs toString this ssh2 host entryCacheTimeout sudoTimeout :
  NonNegativeInteger (default (JsInt 300) entryCacheTimeout) →
  NonNegativeInteger (default (JsInt 300) sudoTimeout) →
  updateSSSDTimeout toString this ssh2 host entryCacheTimeout sudoTimeout =
    executeCommand this ssh2 host
      (timeoutCommands toString this (default (JsInt 300) entryCacheTimeout)
         (default (JsInt 300) sudoTimeout)) None.
Proof.
  intros He%nonNegative_check Hs%nonNegative_check.
  apply andb_true_iff in He as [He1 He2], Hs as [Hs1 Hs2].
  apply negb_true_iff in He2, Hs2.
  unfold updateSSSDTimeout, checkTimeouts. by rewrite He1, He2, Hs1, Hs2.
Qed.

(** *** The fan-out *)

Lemma resume_some calls state i host c :
  calls !! i = Some (host, c) →
  resume calls state i =
    (<[host := recorded (settled c)]> state.1, (state.2 ++ [inr ()])%list).
Proof. intros H. unfold resume. rewrite H. by destruct (settled c). Qed.

Lemma settled_executeOnMultipleHosts this ssh2 schedule hosts command :
  settled (executeOnMultipleHosts this ssh2 schedule hosts command) =
    let state :=
      foldl (resume (imap (λ i host,
               (host, executeCommand this (ssh2 i) host command None)) hosts))
        (∅, []) schedule in
    match Promise_all state.2 with
    | inl e => inl e
    | inr _ => inr state.1
    end.
Proof. unfold executeOnMultipleHosts. by destruct (foldl _ _ _). Qed.

Lemma resume_none calls state i :
  calls !! i = None → resume calls state i = state.
Proof. intros H. unfold resume. by rewrite H. Qed.

Section FanOut.
Variable this : t.
Variable ssh2 : nat → Channel.
Variable hosts : list string.
Variable command : string.

Let call (i : nat) (host : string) : Did SSHCommandResult.t :=
  executeCommand this (ssh2 i) host command None.
Let calls : list (string * Did SSHCommandResult.t) :=
  imap (λ i host, (host, call i host)) hosts.

(** The map after the continuation of call [i] ran. *)
Let write (results : gmap string SSHCommandResult.t) (i : nat)
    : gmap string SSHCommandResult.t :=
  match hosts !! i with
  | Some host => <[host := recorded (settled (call i host))]> results
  | None => results
  end.

Lemma calls_lookup i : calls !! i = (λ host, (host, call i host)) <$> hosts !! i.
Proof. unfold calls. by rewrite list_lookup_imap. Qed.

Lemma resume_write state i : (resume calls state i).1 = write state.1 i.
Proof.
  unfold write. destruct (hosts !! i) as [host|] eqn:Hi.
  - by rewrite (resume_some calls state i host (call i host))
      by (by rewrite calls_lookup, Hi).
  - by rewrite resume_none by (by rewrite calls_lookup, Hi).
Qed.

Lemma resume_fulfils state i :
  Forall (λ p, p = inr ()) state.2 →
  Forall (λ p, p = inr ()) (resume calls state i).2.
Proof.
  intros Hp. destruct (hosts !! i) as [host|] eqn:Hi.
  - rewrite (resume_some calls state i host (call i host))
      by (by rewrite calls_lookup, Hi).
    apply Forall_app. split; [done | by repeat constructor].
  - by rewrite resume_none by (by rewrite calls_lookup, Hi).
Qed.

Lemma foldl_resume schedule : ∀ state,
  (foldl (resume calls) state schedule).1 = foldl write state.1 schedule ∧
  (Forall (λ p, p = inr ()) state.2 →
   Forall (λ p, p = inr ()) (foldl (resume calls) state schedule).2).
Proof.
  induction schedule as [|i schedule IH]; intros state; [done|].
  simpl. destruct (IH (resume calls state i)) as [IH1 IH2].
  rewrite IH1, resume_write. split; [done|].
  intros Hp. by apply IH2, resume_fulfils.
Qed.

Lemma Promise_all_fulfilled (promises : list (SSHError.t + ())) :
  Forall (λ p, p = inr ()) promises → ∃ l, Promise_all promises = inr l.
Proof.
  induction 1 as [|p promises -> _ [l IH]]; simpl; [by eexists|].
  rewrite IH. by eexists.
Qed.

Lemma write_dom results i host :
  host ∈ dom (write results i) ↔ host ∈ dom results ∨ hosts !! i = Some host.
Proof.
  unfold write. destruct (hosts !! i) as [h|].
  - rewrite dom_insert_L, elem_of_union, elem_of_singleton.
    split.
    + intros [->|H]; [by right | by left].
    + intros [H|[= ->]]; [by right | by left].
  - split; [by left | by intros [?|?]].
Qed.

(** Hosts whose continuation ran are the keys that were added. *)
Lemma foldl_write_dom schedule : ∀ results host,
  host ∈ dom (foldl write results schedule) ↔
  host ∈ dom results ∨ ∃ i, i ∈ schedule ∧ hosts !! i = Some host.
Proof.
  induction schedule as [|i schedule IH]; intros results host; simpl.
  { split; [by left|]. intros [?|(i & []%elem_of_nil & _)]; done. }
  rewrite IH, write_dom. split.
  - intros [[Hin|Hi]|(j & Hj & Hhost)]; [by left|right..].
    + exists i. split; [by left | done].
    + exists j. split; [by right | done].
  - intros [Hin|(j & [->|Hj]%elem_of_cons & Hhost)].
    + by left; left.
    + by left; right.
    + right. by exists j.
Qed.

(** Continuations of calls to other hosts leave the entry of [host]. *)
Lemma foldl_write_other later host : ∀ results,
  (∀ j, j ∈ later → hosts !! j ≠ Some host) →
  foldl write results later !! host = results !! host.
Proof.
  induction later as [|j later IH]; intros results Hother; [done|].
  simpl. rewrite IH by (intros k Hk; apply Hother; by right).
  unfold write. pose proof (Hother j (list_elem_of_here _ _)) as Hj.
  destruct (hosts !! j) as [h|]; [|done].
  apply lookup_insert_ne. congruence.
Qed.

(** The entry of a host is written by the last of its calls to settle. *)
Lemma foldl_write_last earlier i later host results :
  hosts !! i = Some host →
  (∀ j, j ∈ later → hosts !! j ≠ Some host) →
  foldl write results (earlier ++ i :: later) !! host =
    Some (recorded (settled (call i host))).
Proof.
  intros Hi Hother. rewrite foldl_app. simpl.
  rewrite foldl_write_other by done.
  unfold write. rewrite Hi. apply lookup_insert_eq.
Qed.

Lemma executeOnMultipleHosts_unfold schedule :
  Forall (λ p, p = inr ()) (foldl (resume calls) (∅, []) schedule).2 →
  settled (executeOnMultipleHosts this ssh2 schedule hosts command) =
    inr (foldl write ∅ schedule).
Proof.
  intros Hp. rewrite settled_executeOnMultipleHosts.
  change (imap _ hosts) with calls. cbv zeta.
  destruct (Promise_all_fulfilled _ Hp) as [l ->].
  by rewrite (proj1 (foldl_resume schedule (∅, []))).
Qed.

(** C1 (as amended): once every call has settled, in whatever order,
    [executeOnMultipleHosts] resolves, never rejects, and the map it
    resolves with has the requested host names as its keys, one entry
    each. The entry of a host comes from the call to that host that
    settled last (its only call when the host names are distinct): the
    result of the call if it succeeded, and the record with empty stdout,
    the error's message as stderr and exit code -1 if it rejected. *)
Theorem executeOnMultipleHosts_total schedule :
  schedule ≡ₚ seq 0 (length hosts) →
  ∃ results,
    settled (executeOnMultipleHosts this ssh2 schedule hosts command) = inr results ∧
    dom results = list_to_set hosts ∧
    (∀ earlier i later host,
       schedule = (earlier ++ i :: later)%list →
       hosts !! i = Some host →
       (∀ j, j ∈ later → hosts !! j ≠ Some host) →
       (∀ result,
          settled (executeCommand this (ssh2 i) host command None) = inr result →
          results !! host = Some result) ∧
       (∀ error,
          settled (executeCommand this (ssh2 i) host command None) = inl error →
          results !! host =
            Some {| SSHCommandResult.stdout := "";
                    SSHCommandResult.stderr := SSHError.message error;
                    SSHCommandResult.exitCode := -1 |})) ∧
    (NoDup hosts →
     ∀ i host, hosts !! i = Some host →
       (∀ result,
          settled (executeCommand this (ssh2 i) host command None) = inr result →
          results !! host = Some result) ∧
       (∀ error,
          settled (executeCommand this (ssh2 i) host command None) = inl error →
          results !! host =
            Some {| SSHCommandResult.stdout := "";
                    SSHCommandResult.stderr := SSHError.message error;
                    SSHCommandResult.exitCode := -1 |})).
Proof.
  intros Hperm. exists (foldl write ∅ schedule).
  assert (Hlast : ∀ earlier i later host,
    schedule = (earlier ++ i :: later)%list →
    hosts !! i = Some host →
    (∀ j, j ∈ later → hosts !! j ≠ Some host) →
    foldl write ∅ schedule !! host = Some (recorded (settled (call i host)))).
  { intros earlier i later host -> Hi Hother. by apply foldl_write_last. }
  assert (Hentry : ∀ i host v,
    v = Some (recorded (settled (call i host))) →
    (∀ result, settled (call i host) = inr result → v = Some result) ∧
    (∀ error, settled (call i host) = inl error →
       v = Some {| SSHCommandResult.stdout := "";
                   SSHCommandResult.stderr := SSHError.message error;
                   SSHCommandResult.exitCode := -1 |})).
  { intros i host v ->. split; by intros ? ->. }
  split; [|split; [|split]].
  - apply executeOnMultipleHosts_unfold.
    by apply (foldl_resume schedule (∅, [])).
  - apply set_eq. intros host. rewrite foldl_write_dom, elem_of_list_to_set.
    rewrite dom_empty, list_elem_of_lookup. split.
    + intros [[]%elem_of_empty|(i & _ & Hi)]. by exists i.
    + intros [i Hi]. right. exists i. split; [|done].
      rewrite Hperm. apply elem_of_seq. apply lookup_lt_Some in Hi. lia.
  - intros earlier i later host Hsched Hi Hother.
    apply Hentry. by apply (Hlast earlier i later).
  - intros Hnodup i host Hi.
    assert (Hin : i ∈ schedule).
    { rewrite Hperm. apply elem_of_seq. apply lookup_lt_Some in Hi. lia. }
    apply list_elem_of_split in Hin as (earlier & later & Hsched).
    apply Hentry, (Hlast earlier i later); [done..|].
    intros j Hj Hjhost.
    assert (j = i) as -> by (eapply NoDup_lookup; eauto).
    assert (Hnd : NoDup schedule) by (rewrite Hperm; apply NoDup_seq).
    rewrite Hsched in Hnd. apply NoDup_app in Hnd as (_ & _ & Hnd).
    apply NoDup_cons in Hnd as [Hnotin _]. done.
Qed.

(** With distinct host names every host's entry is the record of its one
    call. *)
Lemma executeOnMultipleHosts_distinct schedule :
  schedule ≡ₚ seq 0 (length hosts) →
  NoDup hosts →
  ∃ results,
    settled (executeOnMultipleHosts this ssh2 schedule hosts command) = inr results ∧
    ∀ i host, hosts !! i = Some host →
      results !! host =
        Some (recorded (settled (executeCommand this (ssh2 i) host command None))).
Proof.
  intros Hperm Hnodup. exists (foldl write ∅ schedule). split.
  - apply executeOnMultipleHosts_unfold. by apply (foldl_resume schedule (∅, [])).
  - intros i host Hi.
    assert (Hin : i ∈ schedule).
    { rewrite Hperm. apply elem_of_seq. apply lookup_lt_Some in Hi. lia. }
    apply list_elem_of_split in Hin as (earlier & later & ->).
    apply foldl_write_last; [done|].
    intros j Hj Hjhost.
    assert (j = i) as -> by (eapply NoDup_lookup; eauto).
    assert (Hnd : NoDup (earlier ++ i :: later)) by (rewrite Hperm; apply NoDup_seq).
    apply NoDup_app in Hnd as (_ & _ & Hnd).
    apply NoDup_cons in Hnd as [Hnotin _]. done.
Qed.

End FanOut.

Lemma executeOnMultipleHosts_total_witness :
  [1; 0]%nat ≡ₚ seq 0 (length Fleet.twoHosts) ∧
  ∃ results,
    settled (executeOnMultipleHosts Fleet.manager (λ _, Fleet.oneUp) [1; 0]%nat
               Fleet.twoHosts "uptime") = inr results ∧
    dom results = list_to_set Fleet.twoHosts ∧
    results !! "h1" = Some (SSHCommandResult.mk "done" "" 0) ∧
    results !! "h2" = Some (SSHCommandResult.mk "" "SSH connection failed: refused" (-1)).
Proof.
  assert (Hperm : [1; 0]%nat ≡ₚ seq 0 (length Fleet.twoHosts)) by apply perm_swap.
  split; [exact Hperm|].
  destruct (executeOnMultipleHosts_total Fleet.manager (λ _, Fleet.oneUp)
              Fleet.twoHosts "uptime" [1; 0]%nat Hperm)
    as (results & Hsettled & Hdom & _ & Hdistinct).
  assert (Hnodup : NoDup Fleet.twoHosts).
  { apply NoDup_cons. split; [|apply NoDup_singleton].
    intros Hin%list_elem_of_singleton. discriminate Hin. }
  exists results. split; [exact Hsettled|]. split; [exact Hdom|]. split.
  - exact (proj1 (Hdistinct Hnodup 0%nat "h1" eq_refl) _ eq_refl).
  - exact (proj2 (Hdistinct Hnodup 1%nat "h2" eq_refl)
             (SSHError.new "SSH connection failed: refused" (Some "h2")) eq_refl).
Defined.

(** C1 as stated fails on a list that names a host twice: with hosts
    [h1, h1], the first call succeeding and the second, which settles last,
    rejecting, the map cannot hold for [h1] both the real result of the call
    that succeeded and the record of the call that rejected; it holds the
    latter. *)
Lemma executeOnMultipleHosts_total_counterexample :
  (∃ results,
     settled (executeOnMultipleHosts Fleet.manager Fleet.firstOnly [0; 1]%nat
                Fleet.sameHostTwice "uptime") = inr results ∧
     settled (executeCommand Fleet.manager (Fleet.firstOnly 0) "h1" "uptime" None)
       = inr (SSHCommandResult.mk "done" "" 0) ∧
     results !! "h1" =
       Some (SSHCommandResult.mk "" "SSH connection failed: refused" (-1))) ∧
  ¬ (∀ this ssh2 schedule hosts command,
       schedule ≡ₚ seq 0 (length hosts) →
       ∃ results,
         settled (executeOnMultipleHosts this ssh2 schedule hosts command) = inr results ∧
         ∀ i host, hosts !! i = Some host →
           (∀ result,
              settled (executeCommand this (ssh2 i) host command None) = inr result →
              results !! host = Some result) ∧
           (∀ error,
              settled (executeCommand this (ssh2 i) host command None) = inl error →
              results !! host =
                Some {| SSHCommandResult.stdout := "";
                        SSHCommandResult.stderr := SSHError.message error;
                        SSHCommandResult.exitCode := -1 |})).
Proof.
  split.
  - eexists. split; [reflexivity|]. split; [reflexivity|].
    rewrite lookup_insert_eq. reflexivity.
  - intros H.
    destruct (H Fleet.manager Fleet.firstOnly [0; 1]%nat Fleet.sameHostTwice "uptime")
      as (results & _ & Hentries); [reflexivity|].
    pose proof (proj1 (Hentries 0%nat "h1" eq_refl) _ eq_refl) as Hgood.
    pose proof (proj2 (Hentries 1%nat "h1" eq_refl) _ eq_refl) as Hbad.
    rewrite Hgood in Hbad. discriminate Hbad.
Qed.

(** One connection per requested host, opened in the order of [hosts]. *)
Lemma executeOnMultipleHosts_connects this ssh2 schedule hosts command :
  ConnectConfig.host <$>
    connected (executeOnMultipleHosts this ssh2 schedule hosts command) = hosts.
Proof.
  unfold executeOnMultipleHosts. destruct (foldl _ _ _) as [results promises].
  cbn [connected]. generalize ssh2. clear.
  induction hosts as [|host hosts IH]; intros ssh2; [done|].
  rewrite imap_cons. cbn [fmap list_fmap mjoin list_join app snd executeCommand connected].
  cbn [ConnectConfig.host]. f_equal. apply (IH (λ i, ssh2 (S i))).
Qed.

End FleetFacts.

(** * Further properties of the RPC client *)

Module ClientMore.
Import FreeIPAClient Session ClientFacts.

(** X1: [authenticate] posts exactly the login request and never touches the
    request counter; when it fails, on a status other than 200 or on a
    transport error, the client is left exactly as it was, so a client that
    was logged in keeps its flag and its cookies; when it succeeds it returns
    [true] with the flag set. *)
Theorem authenticate_frame this post :
  let r := authenticate this post in
  sent r = [loginRequest this] ∧
  requestId (after r) = requestId this ∧
  (∀ e, settled r = inl e → after r = this) ∧
  (∀ b, settled r = inr b → b = true ∧ authenticated (after r) = true).
Proof.
  simpl. unfold authenticate. destruct (post (loginRequest this)) as [response|error].
  - destruct (decide _) as [Hok|Hko]; simpl.
    + destruct (AxiosResponse.set_cookie response); simpl;
        (split; [done|]; split; [done|]; split; [done|]);
        by intros b [= <-].
    + split; [done|]. split; [done|]. split; [done|]. done.
  - simpl. split; [done|]. split; [done|]. split; [done|]. done.
Qed.

Lemma authenticate_frame_witness :
  let r := authenticate Sample.loggedInClient Sample.refusedLogin in
  (∃ e, settled r = inl e) ∧
  after r = Sample.loggedInClient ∧
  authenticated (after r) = true ∧
  cookies (after r) = "a=1; b=2".
Proof.
  intros r.
  destruct (authenticate_frame Sample.loggedInClient Sample.refusedLogin)
    as (_ & _ & Hfail & _).
  assert (Hsame : after r = Sample.loggedInClient) by (eapply Hfail; reflexivity).
  split; [eexists; reflexivity|]. split; [exact Hsame|].
  rewrite Hsame. split; reflexivity.
Defined.

(** X2: after a login that was answered with HTTP 200 and [Set-Cookie]
    headers, the next [apiCall] posts one request to [<baseUrl>/json] whose
    [Cookie] header is the joined cookie prefixes of that login and whose
    [Referer] is the base URL. *)
Theorem apiCall_replays_cookies this login response setCookies post method params options :
  login (loginRequest this) = AxiosResolved response →
  AxiosResponse.status response = 200 →
  AxiosResponse.set_cookie response = Some setCookies →
  ∃ request,
    sent (apiCall (after (authenticate this login)) post method params options)
      = [request] ∧
    HttpRequest.url request = baseUrl this +:+ "/json" ∧
    HttpRequest.headers request =
      [("Content-Type", "application/json");
       ("Accept", "application/json");
       ("Referer", baseUrl this);
       ("Cookie", join "; " (split_head ";" <$> setCookies))].
Proof.
  intros Hlogin Hstatus Hcookies.
  set (client := after (authenticate this login)).
  assert (Hclient : client =
    set_authenticated (set_cookies this (join "; " (split_head ";" <$> setCookies))) true).
  { unfold client, authenticate. rewrite Hlogin.
    destruct (decide _); [|done]. by rewrite Hcookies. }
  assert (Hauth : authenticated client = true) by by rewrite Hclient.
  destruct (apiCall_authenticated client post method params options Hauth)
    as [outcome ->].
  eexists. split; [reflexivity|]. by rewrite Hclient.
Qed.

Lemma apiCall_replays_cookies_witness :
  ∃ request,
    sent (apiCall Sample.loggedInClient Sample.unreachable "ping" [] ∅) = [request] ∧
    HttpRequest.url request = "https://ipa.example.com/ipa/json" ∧
    HttpRequest.headers request =
      [("Content-Type", "application/json");
       ("Accept", "application/json");
       ("Referer", "https://ipa.example.com/ipa");
       ("Cookie", "a=1; b=2")].
Proof.
  exact (apiCall_replays_cookies Sample.fresh
           (Sample.loginReply 200 (Some Sample.twoCookies))
           (AxiosResponse.mk 200 (Some Sample.twoCookies) "") Sample.twoCookies
           Sample.unreachable "ping" [] ∅ eq_refl eq_refl eq_refl).
Defined.

(** X3: what [authenticate] keeps of a [Set-Cookie] header is its longest
    prefix without a semicolon: the header is that prefix followed by nothing
    or by text that starts with the semicolon, the prefix has no semicolon,
    and a header without semicolon is kept whole. *)
Theorem split_head_longest_prefix (sep : ascii) (s : string) :
  (∃ rest, s = split_head sep s +:+ rest ∧
           (rest = "" ∨ ∃ tail, rest = String sep tail)) ∧
  (sep ∉ list_ascii_of_string (split_head sep s)) ∧
  (sep ∉ list_ascii_of_string s → split_head sep s = s).
Proof.
  induction s as [|c s IH]; simpl.
  - split; [exists ""; split; [done | by left]|].
    split; [apply not_elem_of_nil | done].
  - destruct IH as ((rest & Hrest & Hsep) & Hnot & Hwhole).
    destruct (decide (c = sep)) as [->|Hne]; simpl.
    + split; [exists (String sep s); split; [done | right; by eexists]|].
      split; [apply not_elem_of_nil|]. intros Hs. exfalso. apply Hs. by left.
    + split; [exists rest; split; [exact (f_equal (String c) Hrest) | done]|].
      split.
      * intros [Heq|Hin]%elem_of_cons; [by apply Hne | by apply Hnot].
      * intros Hs. f_equal. apply Hwhole. intros Hin. apply Hs. by right.
Qed.

Lemma split_head_longest_prefix_witness :
  (";"%char ∉ list_ascii_of_string "sid=42") ∧
  split_head ";" "sid=42" = "sid=42".
Proof.
  assert (H : ";"%char ∉ list_ascii_of_string "sid=42").
  { intros Hin. by repeat (apply elem_of_cons in Hin as [Heq|Hin]; [discriminate Heq|]);
      apply elem_of_nil in Hin. }
  split; [exact H|].
  exact (proj2 (proj2 (split_head_longest_prefix ";" "sid=42")) H).
Defined.

(** X4: nothing a client does ever clears its authenticated flag. Once it is
    set, it stays set through every later login attempt and call, failed or
    not, and every later [apiCall] gets past the login check and posts
    exactly one request. *)
Theorem login_is_never_lost ops : ∀ this,
  authenticated this = true →
  authenticated (run this ops).2 = true ∧
  Forall (λ ev, match ev with
                | Called r => ∃ request, sent r = [request]
                | Authenticated _ => True
                end) (run this ops).1.
Proof.
  induction ops as [|op ops IH]; intros this Hauth; [by split|].
  rewrite run_cons. cbn [fst snd].
  assert (Hnext : authenticated (clientAfter (invoke this op)) = true).
  { destruct op as [post|post method params options]; cbn [invoke clientAfter].
    - unfold authenticate. destruct (post _); [|done].
      destruct (decide _); [|done]. by destruct (AxiosResponse.set_cookie _).
    - by destruct (apiCall_authenticated this post method params options Hauth)
        as [outcome ->]. }
  destruct (IH _ Hnext) as [IHauth IHev]. split; [done|].
  constructor; [|done].
  destruct op as [post|post method params options]; cbn [invoke]; [done|].
  destruct (apiCall_authenticated this post method params options Hauth)
    as [outcome ->]. by eexists.
Qed.

Lemma login_is_never_lost_witness :
  authenticated Sample.loggedInClient = true ∧
  authenticated (run Sample.loggedInClient Sample.failedLogins).2 = true ∧
  Forall (λ ev, match ev with
                | Called r => ∃ request, sent r = [request]
                | Authenticated _ => True
                end) (run Sample.loggedInClient Sample.failedLogins).1.
Proof.
  split; [reflexivity|].
  exact (login_is_never_lost Sample.failedLogins Sample.loggedInClient eq_refl).
Defined.

(** X5: the request counter of a client is the number of requests its
    [apiCall]s have posted so far (logins and calls refused for lack of a
    login consume no id), and no two posted requests carry the same id. *)
Theorem requestId_counts_posted config appConfig ops :
  let life := run (new config appConfig) ops in
  requestId life.2 = Z.of_nat (length (requestIds life.1)) ∧
  NoDup (requestIds life.1).
Proof.
  simpl. destruct (run_requestIds ops (new config appConfig)) as [Hids Hfinal].
  split; [by rewrite Hfinal|]. rewrite Hids. apply NoDup_seqZ.
Qed.

Lemma lookup_assignIf key v params k :
  assignIf key v params !! k =
    if decide (key = k)
    then match v with Some l => Some (JStrings l) | None => params !! k end
    else params !! k.
Proof.
  unfold assignIf. destruct v as [l|]; [|by destruct (decide _)].
  destruct (decide (key = k)) as [->|Hne]; [apply lookup_insert_eq|].
  by apply lookup_insert_ne.
Qed.

(** [{...explicit, ...options}]: the options come last and win. *)
Lemma lookup_spread (options explicit : gmap string JsValue) key :
  (options ∪ explicit) !! key =
    match options !! key with
    | Some v => Some v
    | None => explicit !! key
    end.
Proof.
  destruct (options !! key) eqn:H;
    [by apply lookup_union_Some_l | by apply lookup_union_r].
Qed.

(** The request an authenticated client posts for a method, its positional
    arguments and its named options. *)
Lemma apiCall_posts this post method params options :
  authenticated this = true →
  ∃ request,
    sent (apiCall this post method params options) = [request] ∧
    HttpRequest.body request =
      JsonBody {| FreeIPARequest.method := method;
                  FreeIPARequest.params := [JArr params; JObj options];
                  FreeIPARequest.id := requestId this + 1 |}.
Proof.
  intros Hauth.
  destruct (apiCall_authenticated this post method params options Hauth)
    as [outcome ->].
  eexists. split; [reflexivity|]. cbn [apiRequest HttpRequest.body].
  by rewrite apiParams_shape.
Qed.

(** X6: [userAdd] sends the uid positionally and the caller's options as
    named options, completed by [givenname] and [sn]; as the options are
    spread last, an option called [givenname] or [sn] replaces the
    argument of that name, and every other key goes through unchanged. *)
Theorem userAdd_options_win this post uid givenname sn options :
  authenticated this = true →
  ∃ request named,
    sent (userAdd this post uid givenname sn options) = [request] ∧
    HttpRequest.body request =
      JsonBody {| FreeIPARequest.method := "user_add";
                  FreeIPARequest.params := [JArr [JStr uid]; JObj named];
                  FreeIPARequest.id := requestId this + 1 |} ∧
    named !! "givenname" = Some (default (JStr givenname) (options !! "givenname")) ∧
    named !! "sn" = Some (default (JStr sn) (options !! "sn")) ∧
    (∀ key, key ≠ "givenname" → key ≠ "sn" → named !! key = options !! key).
Proof.
  intros Hauth. unfold userAdd.
  destruct (apiCall_posts this post "user_add" [JStr uid]
              (options ∪ <["givenname" := JStr givenname]> (<["sn" := JStr sn]> ∅)) Hauth)
    as (request & Hsent & Hbody).
  exists request. eexists. split; [exact Hsent|]. split; [exact Hbody|].
  split; [|split].
  - rewrite lookup_spread. destruct (options !! "givenname"); simpl; [done|].
    by rewrite lookup_insert_eq.
  - rewrite lookup_spread. destruct (options !! "sn"); simpl; [done|].
    by rewrite lookup_insert_ne, lookup_insert_eq.
  - intros key Hg Hs. rewrite lookup_spread.
    destruct (options !! key); [done|].
    by rewrite !lookup_insert_ne, lookup_empty.
Qed.

Lemma userAdd_options_win_witness :
  authenticated Sample.loggedInClient = true ∧
  ∃ request named,
    sent (userAdd Sample.loggedInClient Sample.unreachable "alice" "Alice" "Smith"
            Sample.nicknameOption) = [request] ∧
    HttpRequest.body request =
      JsonBody {| FreeIPARequest.method := "user_add";
                  FreeIPARequest.params := [JArr [JStr "alice"]; JObj named];
                  FreeIPARequest.id := requestId Sample.loggedInClient + 1 |} ∧
    named !! "givenname" = Some (JStr "Al") ∧
    named !! "sn" = Some (JStr "Smith").
Proof.
  split; [reflexivity|].
  destruct (userAdd_options_win Sample.loggedInClient Sample.unreachable
              "alice" "Alice" "Smith" Sample.nicknameOption eq_refl)
    as (request & named & Hsent & Hbody & Hgiven & Hsn & _).
  exists request, named. split; [exact Hsent|]. split; [exact Hbody|].
  split; [exact Hgiven | exact Hsn].
Defined.

(** X7: [certRequest] and [certRevoke] fill in their defaults, the profile
    [caIPAserviceCert] and the revocation reason 0, when the argument is left
    out, and an option of the same name ([profile_id], [principal],
    [revocation_reason]) replaces argument and default alike. *)
Theorem cert_defaults this post :
  authenticated this = true →
  (∀ csr principal profileId options, ∃ request named,
     sent (certRequest this post csr principal profileId options) = [request] ∧
     HttpRequest.body request =
       JsonBody {| FreeIPARequest.method := "cert_request";
                   FreeIPARequest.params := [JArr [JStr csr]; JObj named];
                   FreeIPARequest.id := requestId this + 1 |} ∧
     named !! "principal" = Some (default (JStr principal) (options !! "principal")) ∧
     named !! "profile_id" =
       Some (default (JStr (default "caIPAserviceCert" profileId))
               (options !! "profile_id"))) ∧
  (∀ serialNumber reason options, ∃ request named,
     sent (certRevoke this post serialNumber reason options) = [request] ∧
     HttpRequest.body request =
       JsonBody {| FreeIPARequest.method := "cert_revoke";
                   FreeIPARequest.params := [JArr [JStr serialNumber]; JObj named];
                   FreeIPARequest.id := requestId this + 1 |} ∧
     named !! "revocation_reason" =
       Some (default (JNum (default 0 reason)) (options !! "revocation_reason"))).
Proof.
  intros Hauth. split.
  - intros csr principal profileId options. unfold certRequest.
    destruct (apiCall_posts this post "cert_request" [JStr csr]
                (options ∪ <["principal" := JStr principal]>
                   (<["profile_id" := JStr (default "caIPAserviceCert" profileId)]> ∅))
                Hauth) as (request & Hsent & Hbody).
    exists request. eexists. split; [exact Hsent|]. split; [exact Hbody|]. split.
    + rewrite lookup_spread. destruct (options !! "principal"); simpl; [done|].
    by rewrite lookup_insert_eq.
    + rewrite lookup_spread. destruct (options !! "profile_id"); simpl; [done|].
    by rewrite lookup_insert_ne, lookup_insert_eq.
  - intros serialNumber reason options. unfold certRevoke.
    destruct (apiCall_posts this post "cert_revoke" [JStr serialNumber]
                (options ∪ <["revocation_reason" := JNum (default 0 reason)]> ∅)
                Hauth) as (request & Hsent & Hbody).
    exists request. eexists. split; [exact Hsent|]. split; [exact Hbody|].
    rewrite lookup_spread. destruct (options !! "revocation_reason"); simpl; [done|].
    by rewrite lookup_insert_eq.
Qed.

Lemma cert_defaults_witness :
  authenticated Sample.loggedInClient = true ∧
  (∃ request named,
     sent (certRequest Sample.loggedInClient Sample.unreachable "CSR" "HTTP/web" None ∅)
       = [request] ∧
     HttpRequest.body request =
       JsonBody {| FreeIPARequest.method := "cert_request";
                   FreeIPARequest.params := [JArr [JStr "CSR"]; JObj named];
                   FreeIPARequest.id := requestId Sample.loggedInClient + 1 |} ∧
     named !! "principal" = Some (JStr "HTTP/web") ∧
     named !! "profile_id" = Some (JStr "caIPAserviceCert")).
Proof.
  split; [reflexivity|].
  exact (proj1 (cert_defaults Sample.loggedInClient Sample.unreachable eq_refl)
           "CSR" "HTTP/web" None ∅).
Defined.

(** X8: the named options of [serviceAllowCreateKeytab] hold exactly the
    relations that were passed: [user], [group], [host] and [hostgroup] are
    bound to the list given for them and absent when it was left out, and
    there is no other key; with nothing passed the mapping is empty. *)
Theorem serviceAllowCreateKeytab_relations this post principal users groups hosts hostgroups :
  authenticated this = true →
  ∃ request named,
    sent (serviceAllowCreateKeytab this post principal users groups hosts hostgroups)
      = [request] ∧
    HttpRequest.body request =
      JsonBody {| FreeIPARequest.method := "service_allow_create_keytab";
                  FreeIPARequest.params := [JArr [JStr principal]; JObj named];
                  FreeIPARequest.id := requestId this + 1 |} ∧
    named !! "user" = JStrings <$> users ∧
    named !! "group" = JStrings <$> groups ∧
    named !! "host" = JStrings <$> hosts ∧
    named !! "hostgroup" = JStrings <$> hostgroups ∧
    (∀ key, key ∉ ["user"; "group"; "host"; "hostgroup"] → named !! key = None) ∧
    (users = None → groups = None → hosts = None → hostgroups = None → named = ∅).
Proof.
  intros Hauth. unfold serviceAllowCreateKeytab.
  destruct (apiCall_posts this post "service_allow_create_keytab" [JStr principal]
              (assignIf "hostgroup" hostgroups
                 (assignIf "host" hosts (assignIf "group" groups (assignIf "user" users ∅))))
              Hauth) as (request & Hsent & Hbody).
  exists request. eexists. split; [exact Hsent|]. split; [exact Hbody|].
  repeat split.
  - rewrite !lookup_assignIf. simpl. by destruct users.
  - rewrite !lookup_assignIf. simpl. by destruct groups.
  - rewrite !lookup_assignIf. simpl. by destruct hosts.
  - rewrite !lookup_assignIf. simpl. by destruct hostgroups.
  - intros key Hkey. rewrite !lookup_assignIf.
    repeat (destruct (decide _) as [<-|_];
            [exfalso; apply Hkey; repeat constructor|]).
    apply lookup_empty.
  - by intros -> -> -> ->.
Qed.

Lemma serviceAllowCreateKeytab_relations_witness :
  authenticated Sample.loggedInClient = true ∧
  ∃ request named,
    sent (serviceAllowCreateKeytab Sample.loggedInClient Sample.unreachable
            "HTTP/web" None (Some ["admins"]) None (Some [])) = [request] ∧
    HttpRequest.body request =
      JsonBody {| FreeIPARequest.method := "service_allow_create_keytab";
                  FreeIPARequest.params := [JArr [JStr "HTTP/web"]; JObj named];
                  FreeIPARequest.id := requestId Sample.loggedInClient + 1 |} ∧
    named !! "user" = None ∧
    named !! "group" = Some (JStrings ["admins"]) ∧
    named !! "host" = None ∧
    named !! "hostgroup" = Some (JStrings []).
Proof.
  split; [reflexivity|].
  destruct (serviceAllowCreateKeytab_relations Sample.loggedInClient Sample.unreachable
              "HTTP/web" None (Some ["admins"]) None (Some []) eq_refl)
    as (request & named & Hsent & Hbody & Hu & Hg & Hh & Hhg & _).
  exists request, named. repeat split; assumption.
Defined.

(** X9: the rule methods that take two optional relations and no options
    bag ([sudoruleAddUser], [sudoruleAddHost], [sudoruleAddAllowCommand],
    [hbacruleAddService]) send each relation under its own key exactly when
    it was passed; an empty list that was passed is sent as an empty list. *)
Theorem rule_relations this post cn first second :
  authenticated this = true →
  let named (k1 k2 : string) : gmap string JsValue :=
    assignIf k2 second (assignIf k1 first ∅) in
  let posts (r : Ran JsValue) (method k1 k2 : string) :=
    ∃ request,
      sent r = [request] ∧
      HttpRequest.body request =
        JsonBody {| FreeIPARequest.method := method;
                    FreeIPARequest.params := [JArr [JStr cn]; JObj (named k1 k2)];
                    FreeIPARequest.id := requestId this + 1 |} ∧
      named k1 k2 !! k1 = JStrings <$> first ∧
      named k1 k2 !! k2 = JStrings <$> second ∧
      dom (named k1 k2) =
        match first with Some _ => {[k1]} | None => ∅ end
        ∪ match second with Some _ => {[k2]} | None => ∅ end in
  posts (sudoruleAddUser this post cn first second) "sudorule_add_user" "user" "group" ∧
  posts (sudoruleAddHost this post cn first second) "sudorule_add_host" "host" "hostgroup" ∧
  posts (sudoruleAddAllowCommand this post cn first second)
    "sudorule_add_allow_command" "sudocmd" "sudocmdgroup" ∧
  posts (hbacruleAddService this post cn first second)
    "hbacrule_add_service" "hbacsvc" "hbacsvcgroup".
Proof.
  intros Hauth named posts.
  assert (Hposts : ∀ method k1 k2, k1 ≠ k2 →
            posts (apiCall this post method [JStr cn] (named k1 k2)) method k1 k2).
  { intros method k1 k2 Hne.
    destruct (apiCall_posts this post method [JStr cn] (named k1 k2) Hauth)
      as (request & Hsent & Hbody).
    exists request. split; [exact Hsent|]. split; [exact Hbody|].
    unfold named. split; [|split].
    - rewrite !lookup_assignIf, decide_False, decide_True by done.
      destruct first; [done | apply lookup_empty].
    - rewrite lookup_assignIf, decide_True by done.
      destruct second; [done|].
      rewrite lookup_assignIf, decide_False by done. apply lookup_empty.
    - unfold assignIf. destruct first, second;
        rewrite ?dom_insert_L, ?dom_empty_L, ?(right_id_L ∅ (∪)), ?(left_id_L ∅ (∪));
        try done. apply (comm_L (∪)). }
  repeat split; by apply Hposts.
Qed.

Lemma rule_relations_witness :
  authenticated Sample.loggedInClient = true ∧
  ∃ request,
    sent (sudoruleAddUser Sample.loggedInClient Sample.unreachable "ops"
            (Some ["alice"]) None) = [request] ∧
    HttpRequest.body request =
      JsonBody {| FreeIPARequest.method := "sudorule_add_user";
                  FreeIPARequest.params :=
                    [JArr [JStr "ops"]; JObj (<["user" := JStrings ["alice"]]> ∅)];
                  FreeIPARequest.id := requestId Sample.loggedInClient + 1 |}.
Proof.
  split; [reflexivity|].
  destruct (proj1 (rule_relations Sample.loggedInClient Sample.unreachable "ops"
                     (Some ["alice"]) None eq_refl))
    as (request & Hsent & Hbody & _).
  exists request. split; [exact Hsent | exact Hbody].
Defined.

(** X10: the methods that report a boolean ([userDel], [sudoruleEnable],
    [dnsrecordDel]) resolve with [true] for every HTTP 200 reply without a
    fault object, whatever the payload and even when the body has no result
    at all. *)
Theorem boolean_methods this post response :
  authenticated this = true →
  (∀ request, post request = AxiosResolved response) →
  AxiosResponse.status response = 200 →
  FreeIPAResponse.error (AxiosResponse.data response) = None →
  (∀ uid, settled (userDel this post uid) = inr true) ∧
  (∀ cn, settled (sudoruleEnable this post cn) = inr true) ∧
  (∀ zone name, settled (dnsrecordDel this post zone name) = inr true).
Proof.
  intros Hauth Hpost Hstatus Hfault.
  assert (Hcall : ∀ method params,
            ∃ payload, settled (apiCall this post method params ∅) = inr payload).
  { intros method params. unfold apiCall. rewrite Hauth. cbn [negb settled].
    rewrite Hpost. destruct (decide _) as [|_]; [done|].
    rewrite Hfault. by eexists. }
  unfold userDel, sudoruleEnable, dnsrecordDel, thenTrue. cbn [settled].
  repeat split; intros.
  - by destruct (Hcall "user_del" [JStr uid]) as [payload ->].
  - by destruct (Hcall "sudorule_enable" [JStr cn]) as [payload ->].
  - by destruct (Hcall "dnsrecord_del" [JStr zone; JStr name]) as [payload ->].
Qed.

Lemma boolean_methods_witness :
  authenticated Sample.loggedInClient = true ∧
  settled (userDel Sample.loggedInClient Sample.emptyReply "alice") = inr true.
Proof.
  split; [reflexivity|].
  exact (proj1 (boolean_methods Sample.loggedInClient Sample.emptyReply
                  (AxiosResponse.mk 200 None (FreeIPAResponse.mk None None 1))
                  eq_refl (λ _, eq_refl) eq_refl eq_refl) "alice").
Defined.

(** The booleans are never [false]. *)
Lemma thenTrue_true (r : Ran JsValue) b : settled (thenTrue r) = inr b → b = true.
Proof. unfold thenTrue. cbn [settled]. destruct (settled r); [done|]. by intros [= <-]. Qed.

End ClientMore.

(** * Further properties of the SSH manager *)

Module FleetMore.
Import SSHManager FleetFacts.

(** *** Strings *)

Lemma string_app_assoc (a b c : string) : (a +:+ b) +:+ c = a +:+ (b +:+ c).
Proof. induction a as [|x a IH]; [done | exact (f_equal (String x) IH)]. Qed.

Lemma string_app_nil_r (a : string) : a +:+ "" = a.
Proof. induction a as [|x a IH]; [done | exact (f_equal (String x) IH)]. Qed.

Lemma rev_app_spec (s1 s2 : string) : String.rev_app s1 s2 = String.rev s1 +:+ s2.
Proof.
  revert s2. induction s1 as [|a s1 IH]; intros s2; [done|].
  unfold String.rev. simpl. rewrite (IH (String a s2)), (IH (String a "")).
  by rewrite string_app_assoc.
Qed.

Lemma rev_cons a (s : string) : String.rev (String a s) = String.rev s +:+ String a "".
Proof. unfold String.rev at 1. simpl. apply rev_app_spec. Qed.

Lemma rev_app_distr (s1 s2 : string) :
  String.rev (s1 +:+ s2) = String.rev s2 +:+ String.rev s1.
Proof.
  induction s1 as [|a s1 IH].
  - change (String.rev s2 = String.rev s2 +:+ ""). by rewrite string_app_nil_r.
  - change (String.rev (String a (s1 +:+ s2)) =
            String.rev s2 +:+ String.rev (String a s1)).
    by rewrite !rev_cons, IH, string_app_assoc.
Qed.

Lemma rev_involutive (s : string) : String.rev (String.rev s) = s.
Proof.
  induction s as [|a s IH]; [done|].
  by rewrite rev_cons, rev_app_distr, IH.
Qed.

(** *** [trim] *)

Lemma trimStart_head s :
  trimStart s = "" ∨ ∃ c rest, trimStart s = String c rest ∧ is_space c = false.
Proof.
  induction s as [|c s IH]; simpl; [by left|].
  destruct (is_space c) eqn:Hc; [done|]. right. by exists c, s.
Qed.

Lemma trimStart_keeps c s : is_space c = false → trimStart (String c s) = String c s.
Proof. intros Hc. simpl. by rewrite Hc. Qed.

Lemma trimStart_before x c y :
  is_space c = false → ∃ x', trimStart (x +:+ String c y) = x' +:+ String c y.
Proof.
  intros Hc. induction x as [|d x [x' IH]]; simpl.
  - rewrite Hc. by exists "".
  - destruct (is_space d); [by exists x'|]. by exists (String d x).
Qed.

(** The three shapes of a trimmed text: empty, or from a first to a last
    character that are no white space. *)
Lemma trim_shape s :
  trim s = "" ∨
  ∃ c middle, is_space c = false ∧ trim s = String c (String.rev middle) ∧
    (trimStart (String.rev (trimStart s)) = middle +:+ String c "").
Proof.
  unfold trim. destruct (trimStart_head s) as [->|(c & rest & -> & Hc)]; [by left|].
  right. rewrite rev_cons.
  destruct (trimStart_before (String.rev rest) c "" Hc) as [x' Hx].
  exists c, x'. split; [done|]. rewrite Hx. split; [|done].
  by rewrite rev_app_distr.
Qed.

Lemma trim_Trimmed s : Trimmed (trim s).
Proof.
  split.
  - intros c rest Heq.
    destruct (trim_shape s) as [Hs|(d & middle & Hd & Hs & _)];
      rewrite Hs in Heq; [done|]. by injection Heq as <- _.
  - intros front c Heq.
    assert (Hrev : trimStart (String.rev (trimStart s)) = String c (String.rev front)).
    { apply (f_equal String.rev) in Heq. unfold trim in Heq.
      by rewrite rev_involutive, rev_app_distr in Heq. }
    destruct (trimStart_head (String.rev (trimStart s)))
      as [Hnil|(d & rest & Hd & Hspace)]; rewrite Hrev in *; [done|].
    by injection Hd as -> _.
Qed.

Lemma Trimmed_trim s : Trimmed s → trim s = s.
Proof.
  intros [Hfirst Hlast]. unfold trim.
  assert (Hs : trimStart s = s).
  { destruct s as [|c s]; [done|]. apply trimStart_keeps. by eapply Hfirst. }
  rewrite Hs.
  assert (Hr : trimStart (String.rev s) = String.rev s).
  { destruct (String.rev s) as [|c r] eqn:Hrev; [done|].
    apply trimStart_keeps. apply (Hlast (String.rev r)).
    by rewrite <- (rev_involutive s), Hrev, rev_cons. }
  by rewrite Hr, rev_involutive.
Qed.

Lemma trim_idempotent s : trim (trim s) = trim s.
Proof. apply Trimmed_trim, trim_Trimmed. Qed.

(** X11: what [executeCommand] resolves with is trimmed on both streams:
    neither [stdout] nor [stderr] starts or ends with white space, so trimming
    them again changes nothing, and the exit code is the one the stream closed
    with; it resolves only when the stream closed. *)
Theorem executeCommand_trimmed this ssh2 host command port result :
  settled (executeCommand this ssh2 host command port) = inr result →
  Trimmed (SSHCommandResult.stdout result) ∧
  Trimmed (SSHCommandResult.stderr result) ∧
  trim (SSHCommandResult.stdout result) = SSHCommandResult.stdout result ∧
  trim (SSHCommandResult.stderr result) = SSHCommandResult.stderr result ∧
  ∃ config out err,
    connected (executeCommand this ssh2 host command port) = [config] ∧
    ssh2 config command = StreamClosed out err (SSHCommandResult.exitCode result).
Proof.
  unfold executeCommand. cbn [settled connected].
  destruct (ssh2 _ command) as [message|message|out err code] eqn:Hrun; [done..|].
  intros [= <-]. cbn [SSHCommandResult.stdout SSHCommandResult.stderr
                       SSHCommandResult.exitCode].
  split; [apply trim_Trimmed|]. split; [apply trim_Trimmed|].
  split; [apply trim_idempotent|]. split; [apply trim_idempotent|].
  eexists _, out, err. split; [reflexivity | exact Hrun].
Qed.

Lemma executeCommand_trimmed_witness :
  settled (executeCommand Fleet.manager Fleet.oneUp "h1" "uptime" None)
    = inr (SSHCommandResult.mk "done" "" 0) ∧
  Trimmed "done" ∧ Trimmed "".
Proof.
  assert (H : settled (executeCommand Fleet.manager Fleet.oneUp "h1" "uptime" None)
              = inr (SSHCommandResult.mk "done" "" 0)) by reflexivity.
  split; [exact H|].
  destruct (executeCommand_trimmed _ _ _ _ _ _ H) as (Hout & Herr & _).
  split; [exact Hout | exact Herr].
Defined.

(** The cases of a connectivity test. *)
Lemma testConnectivity_cases this ssh2 host :
  ∃ answer config,
    settled (testConnectivity this ssh2 host) = inr answer ∧
    connected (testConnectivity this ssh2 host) = [config] ∧
    ConnectConfig.host config = host ∧
    ConnectConfig.port config = defaultPort this ∧
    (answer = true ↔
     ∃ out err, ssh2 config echoTest = StreamClosed out err 0 ∧
                trim (String.concat "" out) = "test").
Proof.
  unfold testConnectivity, executeCommand. cbn [settled connected].
  set (config := ConnectConfig.mk _ _ _ _ _).
  destruct (ssh2 config echoTest) as [message|message|out err code] eqn:Hrun.
  - exists false, config. do 4 (split; [done|]).
    split; [done|]. intros (out & err & H & _). by rewrite Hrun in H.
  - exists false, config. do 4 (split; [done|]).
    split; [done|]. intros (out & err & H & _). by rewrite Hrun in H.
  - eexists _, config. do 4 (split; [done|]).
    cbn [SSHCommandResult.exitCode SSHCommandResult.stdout].
    rewrite trim_idempotent, andb_true_iff, !bool_decide_eq_true. split.
    + intros [-> Hout]. by exists out, err.
    + intros (out' & err' & H & Hout). rewrite Hrun in H.
      by injection H as -> -> ->.
Qed.

(** X12: [testConnectivity] never rejects. It opens one connection to the
    host and answers [true] exactly when the stream closed with exit code 0
    and the collected standard output, trimmed, is the word [test]; a failed
    connection or a failed [exec] gives [false]. *)
Theorem testConnectivity_verdict this ssh2 host :
  ∃ answer config,
    settled (testConnectivity this ssh2 host) = inr answer ∧
    connected (testConnectivity this ssh2 host) = [config] ∧
    ConnectConfig.host config = host ∧
    ConnectConfig.port config = defaultPort this ∧
    (answer = true ↔
     ∃ out err, ssh2 config echoTest = StreamClosed out err 0 ∧
                trim (String.concat "" out) = "test").
Proof. apply testConnectivity_cases. Qed.

Lemma testConnectivity_total this ssh2 host :
  ∃ answer, settled (testConnectivity this ssh2 host) = inr answer.
Proof. destruct (testConnectivity_cases this ssh2 host) as (a & _ & H & _). eauto. Qed.

(** *** Writing a map in settle order *)

Section Writes.
Context {V : Type}.
Variable hosts : list string.
Variable value : nat → string → V.

Let put (results : gmap string V) (i : nat) : gmap string V :=
  match hosts !! i with
  | Some host => <[host := value i host]> results
  | None => results
  end.

Lemma put_dom results i host :
  host ∈ dom (put results i) ↔ host ∈ dom results ∨ hosts !! i = Some host.
Proof.
  unfold put. destruct (hosts !! i) as [h|].
  - rewrite dom_insert_L, elem_of_union, elem_of_singleton. split.
    + intros [->|H]; [by right | by left].
    + intros [H|[= ->]]; [by right | by left].
  - split; [by left | by intros [?|?]].
Qed.

Lemma foldl_put_dom schedule : ∀ results,
  schedule ≡ₚ seq 0 (length hosts) →
  dom (foldl put results schedule) = dom results ∪ list_to_set hosts.
Proof.
  intros results Hperm. apply set_eq. intros host.
  rewrite elem_of_union, elem_of_list_to_set, list_elem_of_lookup.
  assert (Hgen : ∀ sched acc,
    host ∈ dom (foldl put acc sched) ↔
    host ∈ dom acc ∨ ∃ i, i ∈ sched ∧ hosts !! i = Some host).
  { induction sched as [|i sched IH]; intros acc; simpl.
    - split; [by left|]. intros [?|(i & []%elem_of_nil & _)]; done.
    - rewrite IH, put_dom. split.
      + intros [[Hin|Hi]|(j & Hj & Hhost)]; [by left|right..].
        * exists i. split; [by left | done].
        * exists j. split; [by right | done].
      + intros [Hin|(j & [->|Hj]%elem_of_cons & Hhost)].
        * by left; left.
        * by left; right.
        * right. by exists j. }
  rewrite Hgen. split.
  - intros [?|(i & _ & Hi)]; [by left|right]. by exists i.
  - intros [?|[i Hi]]; [by left|right]. exists i. split; [|done].
    rewrite Hperm. apply elem_of_seq. apply lookup_lt_Some in Hi. lia.
Qed.

Lemma foldl_put_other later host : ∀ results,
  (∀ j, j ∈ later → hosts !! j ≠ Some host) →
  foldl put results later !! host = results !! host.
Proof.
  induction later as [|j later IH]; intros results Hother; [done|].
  simpl. rewrite IH by (intros k Hk; apply Hother; by right).
  unfold put. pose proof (Hother j (list_elem_of_here _ _)) as Hj.
  destruct (hosts !! j) as [h|]; [|done].
  apply lookup_insert_ne. congruence.
Qed.

Lemma foldl_put_distinct schedule results i host :
  schedule ≡ₚ seq 0 (length hosts) →
  NoDup hosts →
  hosts !! i = Some host →
  foldl put results schedule !! host = Some (value i host).
Proof.
  intros Hperm Hnodup Hi.
  assert (Hin : i ∈ schedule).
  { rewrite Hperm. apply elem_of_seq. apply lookup_lt_Some in Hi. lia. }
  apply list_elem_of_split in Hin as (earlier & later & ->).
  rewrite foldl_app. simpl. rewrite foldl_put_other.
  - unfold put. rewrite Hi. apply lookup_insert_eq.
  - intros j Hj Hjhost.
    assert (j = i) as -> by (eapply NoDup_lookup; eauto).
    assert (Hnd : NoDup (earlier ++ i :: later)) by (rewrite Hperm; apply NoDup_seq).
    apply NoDup_app in Hnd as (_ & _ & Hnd).
    apply NoDup_cons in Hnd as [Hnotin _]. done.
Qed.

End Writes.

Section TestFanOut.
Variable this : t.
Variable ssh2 : nat → Channel.
Variable hosts : list string.

Let answer (i : nat) (host : string) : bool :=
  match settled (testConnectivity this (ssh2 i) host) with
  | inr b => b
  | inl _ => false
  end.
Let tests : list (string * Did bool) :=
  imap (λ i host, (host, testConnectivity this (ssh2 i) host)) hosts.
Let put (results : gmap string bool) (i : nat) : gmap string bool :=
  match hosts !! i with
  | Some host => <[host := answer i host]> results
  | None => results
  end.

Lemma testConnectivity_answer i host :
  settled (testConnectivity this (ssh2 i) host) = inr (answer i host).
Proof.
  unfold answer. by destruct (testConnectivity_total this (ssh2 i) host) as [b ->].
Qed.

Lemma resumeTest_put state i :
  resumeTest tests state i =
    (put state.1 i,
     match hosts !! i with
     | Some _ => (state.2 ++ [inr ()])%list
     | None => state.2
     end).
Proof.
  unfold resumeTest, put, tests. rewrite list_lookup_imap.
  destruct (hosts !! i) as [host|]; cbn [fmap option_fmap option_map];
    [|by destruct state].
  by rewrite testConnectivity_answer.
Qed.

Lemma foldl_resumeTest schedule : ∀ state,
  Forall (λ p, p = inr ()) state.2 →
  (foldl (resumeTest tests) state schedule).1 = foldl put state.1 schedule ∧
  Forall (λ p, p = inr ()) (foldl (resumeTest tests) state schedule).2.
Proof.
  induction schedule as [|i schedule IH]; intros state Hp; [done|].
  simpl. rewrite resumeTest_put.
  destruct (IH (put state.1 i,
                match hosts !! i with
                | Some _ => (state.2 ++ [inr ()])%list
                | None => state.2
                end)) as [IH1 IH2]; [|done].
  cbn [snd]. destruct (hosts !! i); [|done].
  apply Forall_app. split; [done | by repeat constructor].
Qed.

(** X13: whatever the hosts do and in whatever order the tests finish,
    [testConnectivityMultiple] resolves, with one boolean for every requested
    host name and a connection opened to each host in the order of the list;
    with distinct host names the boolean of a host is the answer of
    [testConnectivity] for it, [false] for a host that could not be
    reached. *)
Theorem testConnectivityMultiple_total schedule :
  schedule ≡ₚ seq 0 (length hosts) →
  ∃ results,
    settled (testConnectivityMultiple this ssh2 schedule hosts) = inr results ∧
    dom results = list_to_set hosts ∧
    ConnectConfig.host <$>
      connected (testConnectivityMultiple this ssh2 schedule hosts) = hosts ∧
    (NoDup hosts →
     ∀ i host, hosts !! i = Some host →
       ∃ b, settled (testConnectivity this (ssh2 i) host) = inr b ∧
            results !! host = Some b).
Proof.
  intros Hperm. exists (foldl put ∅ schedule).
  unfold testConnectivityMultiple. fold tests.
  destruct (foldl_resumeTest schedule (∅, [])) as [Hfst Hsnd]; [done|].
  destruct (foldl (resumeTest tests) (∅, []) schedule) as [results promises].
  cbn [fst snd settled connected] in *.
  destruct (Promise_all_fulfilled promises Hsnd) as [l ->]. subst results.
  split; [done|]. split; [|split].
  - rewrite (foldl_put_dom hosts answer) by done.
    by rewrite dom_empty_L, (left_id_L ∅ (∪)).
  - unfold tests. clear. generalize ssh2.
    induction hosts as [|host hs IH]; intros ssh; [done|].
    rewrite imap_cons. cbn [fmap list_fmap mjoin list_join app snd].
    destruct (testConnectivity_cases this (ssh 0%nat) host)
      as (b & config & _ & -> & <- & _).
    cbn [app fmap list_fmap]. f_equal. apply (IH (λ i, ssh (S i))).
  - intros Hnodup i host Hi. exists (answer i host).
    split; [apply testConnectivity_answer|].
    by apply (foldl_put_distinct hosts answer).
Qed.

End TestFanOut.

Lemma testConnectivityMultiple_total_witness :
  [1; 0]%nat ≡ₚ seq 0 (length Fleet.twoHosts) ∧
  ∃ results,
    settled (testConnectivityMultiple Fleet.manager (λ _, Fleet.oneUp) [1; 0]%nat
               Fleet.twoHosts) = inr results ∧
    dom results = list_to_set Fleet.twoHosts.
Proof.
  assert (Hperm : [1; 0]%nat ≡ₚ seq 0 (length Fleet.twoHosts)) by apply perm_swap.
  split; [exact Hperm|].
  destruct (testConnectivityMultiple_total Fleet.manager (λ _, Fleet.oneUp)
              Fleet.twoHosts [1; 0]%nat Hperm) as (results & Hsettled & Hdom & _).
  exists results. split; [exact Hsettled | exact Hdom].
Defined.

Lemma testConnectivity_verdict_witness :
  ∃ config,
    settled (testConnectivity Fleet.manager Fleet.allUp "h1") = inr true ∧
    connected (testConnectivity Fleet.manager Fleet.allUp "h1") = [config] ∧
    ConnectConfig.host config = "h1".
Proof.
  destruct (testConnectivity_verdict Fleet.manager Fleet.allUp "h1")
    as (answer & config & Hsettled & Hconn & Hhost & _ & Hiff).
  exists config. split; [|split; [exact Hconn | exact Hhost]].
  rewrite Hsettled. f_equal. apply Hiff. by exists [" te"; "st "], [].
Defined.

(** X14: with distinct host names the batch operations agree with their
    single host counterparts. Once every call has settled, the entry of a
    host in the map of [clearSSSDCacheMultiple], [checkSSSDStatusMultiple]
    or, for timeouts that are non-negative integers,
    [updateSSSDTimeoutMultiple] is what [clearSSSDCache], [checkSSSDStatus] or
    [updateSSSDTimeout] settles with on that host's channel: its result, or
    the record with exit code -1 that stands for its rejection. *)
Theorem multiple_agrees_with_single toString this ssh2 schedule hosts force
    entryCacheTimeout sudoTimeout :
  schedule ≡ₚ seq 0 (length hosts) →
  NoDup hosts →
  NonNegativeInteger (default (JsInt 300) entryCacheTimeout) →
  NonNegativeInteger (default (JsInt 300) sudoTimeout) →
  (∃ results,
     settled (clearSSSDCacheMultiple this ssh2 schedule hosts force) = inr results ∧
     ∀ i host, hosts !! i = Some host →
       results !! host =
         Some (recorded (settled (clearSSSDCache this (ssh2 i) host force)))) ∧
  (∃ results,
     settled (checkSSSDStatusMultiple this ssh2 schedule hosts) = inr results ∧
     ∀ i host, hosts !! i = Some host →
       results !! host =
         Some (recorded (settled (checkSSSDStatus this (ssh2 i) host)))) ∧
  (∃ results,
     settled (updateSSSDTimeoutMultiple toString this ssh2 schedule hosts
                entryCacheTimeout sudoTimeout) = inr results ∧
     ∀ i host, hosts !! i = Some host →
       results !! host =
         Some (recorded (settled (updateSSSDTimeout toString this (ssh2 i) host
                                    entryCacheTimeout sudoTimeout)))).
Proof.
  intros Hperm Hnodup He Hs. split; [|split].
  - by apply executeOnMultipleHosts_distinct.
  - by apply executeOnMultipleHosts_distinct.
  - destruct (executeOnMultipleHosts_distinct this ssh2 hosts
                (timeoutCommands toString this (default (JsInt 300) entryCacheTimeout)
                   (default (JsInt 300) sudoTimeout)) schedule Hperm Hnodup)
      as (results & Hsettled & Hentries).
    exists results. split.
    + unfold updateSSSDTimeoutMultiple, checkTimeouts.
      apply nonNegative_check, andb_true_iff in He as [He1 He2].
      apply nonNegative_check, andb_true_iff in Hs as [Hs1 Hs2].
      apply negb_true_iff in He2, Hs2. by rewrite He1, He2, Hs1, Hs2.
    + intros i host Hi. rewrite (updateSSSDTimeout_runs toString) by done.
      by apply Hentries.
Qed.

Lemma multiple_agrees_with_single_witness :
  [1; 0]%nat ≡ₚ seq 0 (length Fleet.twoHosts) ∧
  NoDup Fleet.twoHosts ∧
  NonNegativeInteger (default (JsInt 300) (Some (JsInt 60))) ∧
  NonNegativeInteger (default (JsInt 300) None) ∧
  ∃ results,
    settled (clearSSSDCacheMultiple Fleet.manager (λ _, Fleet.oneUp) [1; 0]%nat
               Fleet.twoHosts (Some true)) = inr results ∧
    results !! "h2" =
      Some (SSHCommandResult.mk "" "SSH connection failed: refused" (-1)).
Proof.
  assert (Hperm : [1; 0]%nat ≡ₚ seq 0 (length Fleet.twoHosts)) by apply perm_swap.
  assert (Hnodup : NoDup Fleet.twoHosts).
  { apply NoDup_cons. split; [|apply NoDup_singleton].
    intros Hin%list_elem_of_singleton. discriminate Hin. }
  assert (H60 : NonNegativeInteger (default (JsInt 300) (Some (JsInt 60))))
    by (apply nonNegative_check; reflexivity).
  assert (H300 : NonNegativeInteger (default (JsInt 300) None))
    by (apply nonNegative_check; reflexivity).
  split; [exact Hperm|]. split; [exact Hnodup|]. split; [exact H60|].
  split; [exact H300|].
  destruct (proj1 (multiple_agrees_with_single Fleet.showInt Fleet.manager
                     (λ _, Fleet.oneUp) [1; 0]%nat Fleet.twoHosts (Some true)
                     (Some (JsInt 60)) None Hperm Hnodup H60 H300))
    as (results & Hsettled & Hentries).
  exists results. split; [exact Hsettled|].
  exact (Hentries 1%nat "h2" eq_refl).
Defined.

(** X15: [updateSSSDTimeout] talks to the host exactly when both timeouts are
    non-negative integers: then it opens one connection, to that host on the
    default port, and otherwise none. *)
Theorem updateSSSDTimeout_connects_iff toString this ssh2 host entryCacheTimeout sudoTimeout :
  let r := updateSSSDTimeout toString this ssh2 host entryCacheTimeout sudoTimeout in
  let valid :=
    NonNegativeInteger (default (JsInt 300) entryCacheTimeout) ∧
    NonNegativeInteger (default (JsInt 300) sudoTimeout) in
  (valid ↔ ∃ config, connected r = [config] ∧
                     ConnectConfig.host config = host ∧
                     ConnectConfig.port config = defaultPort this) ∧
  (¬ valid ↔ connected r = []).
Proof.
  intros r valid.
  assert (Hvalid : valid → ∃ config, connected r = [config] ∧
                     ConnectConfig.host config = host ∧
                     ConnectConfig.port config = defaultPort this).
  { intros [He Hs]. unfold r. rewrite updateSSSDTimeout_runs by done.
    eexists. by split. }
  assert (Hinvalid : ¬ valid → connected r = []).
  { intros Hnot. unfold r, updateSSSDTimeout.
    destruct (checkTimeouts _ _) as [e|[]] eqn:Hcheck; [done|].
    exfalso. apply Hnot. unfold checkTimeouts in Hcheck.
    destruct (negb _ || js_lt (default (JsInt 300) entryCacheTimeout) _) eqn:He; [done|].
    destruct (negb _ || js_lt (default (JsInt 300) sudoTimeout) _) eqn:Hs; [done|].
    apply orb_false_iff in He as [He1 He2], Hs as [Hs1 Hs2].
    apply negb_false_iff in He1, Hs1.
    split; apply nonNegative_check; [by rewrite He1, He2 | by rewrite Hs1, Hs2]. }
  split; split; [done| |done|].
  - intros (config & Hconn & _).
    destruct (decide (connected r = [])) as [Hnil|Hsome]; [by rewrite Hnil in Hconn|].
    destruct (updateSSSDTimeout toString this ssh2 host entryCacheTimeout sudoTimeout)
      as [conns out] eqn:Hrun.
    unfold r in *. unfold updateSSSDTimeout in Hrun.
    destruct (checkTimeouts _ _) as [e|[]] eqn:Hcheck.
    { injection Hrun as <- _. done. }
    unfold checkTimeouts in Hcheck.
    destruct (negb _ || js_lt (default (JsInt 300) entryCacheTimeout) _) eqn:He; [done|].
    destruct (negb _ || js_lt (default (JsInt 300) sudoTimeout) _) eqn:Hs; [done|].
    apply orb_false_iff in He as [He1 He2], Hs as [Hs1 Hs2].
    apply negb_false_iff in He1, Hs1.
    split; apply nonNegative_check; [by rewrite He1, He2 | by rewrite Hs1, Hs2].
  - intros Hnil [He Hs]. destruct (Hvalid (conj He Hs)) as (config & Hconn & _).
    by rewrite Hnil in Hconn.
Qed.

(** X16: [escapeDots], the replacement applied to the SSSD domain before it
    enters the [sed] address, works character by character: it distributes
    over concatenation, leaves a text without dots unchanged, and in its
    output every dot stands right after a backslash. *)
Theorem escapeDots_escapes :
  (∀ s1 s2, escapeDots (s1 +:+ s2) = escapeDots s1 +:+ escapeDots s2) ∧
  (∀ s, "."%char ∉ list_ascii_of_string s → escapeDots s = s) ∧
  (∀ s i, list_ascii_of_string (escapeDots s) !! i = Some "."%char →
     ∃ j, i = S j ∧ list_ascii_of_string (escapeDots s) !! j = Some "\"%char).
Proof.
  split; [|split].
  - intros s1 s2. induction s1 as [|c s1 IH]; [done|].
    change (escapeDots (String c (s1 +:+ s2)) =
            escapeDots (String c s1) +:+ escapeDots s2).
    cbn [escapeDots]. rewrite IH. by destruct (decide (c = "."%char)).
  - intros s. induction s as [|c s IH]; [done|].
    intros Hnot. cbn [escapeDots]. destruct (decide (c = "."%char)) as [->|_].
    + exfalso. apply Hnot. by left.
    + f_equal. apply IH. intros Hin. apply Hnot. by right.
  - intros s. induction s as [|c s IH]; intros i; [done|].
    cbn [escapeDots]. destruct (decide (c = "."%char)) as [->|Hne].
    + destruct i as [|[|i]]; [done| |].
      * intros _. by exists 0%nat.
      * intros Hi. destruct (IH i Hi) as (j & -> & Hj). by exists (S (S j)).
    + destruct i as [|i]; simpl.
      * by intros [= ->].
      * intros Hi. destruct (IH i Hi) as (j & -> & Hj). by exists (S j).
Qed.

Lemma escapeDots_escapes_witness :
  ("."%char ∉ list_ascii_of_string "localdomain") ∧
  escapeDots "localdomain" = "localdomain".
Proof.
  assert (H : "."%char ∉ list_ascii_of_string "localdomain").
  { intros Hin. by repeat (apply elem_of_cons in Hin as [Heq|Hin]; [discriminate Heq|]);
      apply elem_of_nil in Hin. }
  split; [exact H|].
  exact (proj1 (proj2 escapeDots_escapes) "localdomain" H).
Defined.

End FleetMore.

(** * Properties of the tool parameter validation *)

Module IndexFacts.
Import Index FleetFacts.

Lemma hostnameChar_alphabet c :
  hostnameChar c =
    bool_decide (c ∈ list_ascii_of_string
                       "abcdefghijklmnopqrstuvwxyzABCDEFGHIJKLMNOPQRSTUVWXYZ0123456789._-").
Proof. by destruct c as [[] [] [] [] [] [] [] []]; vm_compute. Qed.

Lemma hostnameChar_shellSafe c :
  hostnameChar c = true → shellSafeChar c = true ∧ c ≠ "@"%char.
Proof. by destruct c as [[] [] [] [] [] [] [] []]; vm_compute. Qed.

Lemma hostnameStar_alphabet s :
  hostnameStar s = true ↔
  Forall (λ c, c ∈ list_ascii_of_string
                     "abcdefghijklmnopqrstuvwxyzABCDEFGHIJKLMNOPQRSTUVWXYZ0123456789._-")
    (list_ascii_of_string s).
Proof.
  induction s as [|c s IH]; simpl.
  - split; [constructor | done].
  - by rewrite andb_true_iff, Forall_cons, IH, hostnameChar_alphabet, bool_decide_eq_true.
Qed.

Lemma SAFE_HOSTNAME_test_spec s : SAFE_HOSTNAME_test s = true ↔ SafeHostname s.
Proof.
  unfold SafeHostname. destruct s as [|c s].
  - simpl. split; [done | by intros [? _]].
  - change (SAFE_HOSTNAME_test (String c s)) with (hostnameStar (String c s)).
    rewrite hostnameStar_alphabet. split; [by intros ? | by intros [_ ?]].
Qed.

Lemma hostnameStar_classStar s :
  hostnameStar s = true →
  classStar s = true ∧ "@"%char ∉ list_ascii_of_string s.
Proof.
  induction s as [|c s IH]; simpl; [by split; [|apply not_elem_of_nil]|].
  intros [Hc Hs]%andb_true_iff.
  destruct (hostnameChar_shellSafe c Hc) as [-> Hat], (IH Hs) as [-> Hnot].
  split; [done|]. intros [Heq|Hin]%elem_of_cons; [by apply Hat | by apply Hnot].
Qed.

Lemma validateIdentifier_accepts value name :
  (∀ s, validateIdentifier value name = inr s ↔ value = JStr s ∧ SafeIdentifier s) ∧
  (∀ s, validateIdentifier value name = inr s →
     validateShellSafe s name = inr s ∧
     ∀ ssh ssh2 host,
       SSHManager.invalidateUser ssh ssh2 host s =
         SSHManager.executeCommand ssh ssh2 host ("sudo sss_cache -u " +:+ s) None).
Proof.
  assert (Hiff : ∀ s, validateIdentifier value name = inr s ↔
                      value = JStr s ∧ SafeIdentifier s).
  { intros s. unfold validateIdentifier, SAFE_IDENTIFIER_test.
    destruct value as [| | | |v| |]; try (split; [done | by intros [? _]]).
    destruct (decide (v = "")) as [->|Hne].
    - split; [done|]. intros [[= <-] [? _]]. done.
    - destruct (SAFE_test v) eqn:Htest; simpl.
      + split; [intros [= <-]; split; [done | by apply SAFE_test_spec]|].
        by intros [[= <-] _].
      + split; [done|]. intros [[= <-] Hs%SAFE_test_spec]. congruence. }
  split; [exact Hiff|].
  intros s [_ Hsafe]%Hiff. split; [by apply validateShellSafe_accepts|].
  intros ssh ssh2 host. unfold SSHManager.invalidateUser.
  by rewrite validateShellSafe_accepts.
Qed.

(** X17: [validateIdentifier] returns a value exactly when it is a string
    that [validateShellSafe] accepts, a non-empty string over letters, digits,
    dot, hyphen, underscore and at-sign; a user name that passed it is
    therefore never refused by [invalidateUser], which goes on to run the
    command. Anything that is not a string is refused. *)
Theorem validateIdentifier_agrees value name :
  (∀ s, validateIdentifier value name = inr s ↔ value = JStr s ∧ SafeIdentifier s) ∧
  (∀ s, validateIdentifier value name = inr s →
     validateShellSafe s name = inr s ∧
     ∀ ssh ssh2 host,
       SSHManager.invalidateUser ssh ssh2 host s =
         SSHManager.executeCommand ssh ssh2 host ("sudo sss_cache -u " +:+ s) None).
Proof. apply validateIdentifier_accepts. Qed.

Lemma validateIdentifier_agrees_witness :
  validateIdentifier (JStr "alice.smith@EXAMPLE.COM") "username"
    = inr "alice.smith@EXAMPLE.COM" ∧
  validateShellSafe "alice.smith@EXAMPLE.COM" "username" = inr "alice.smith@EXAMPLE.COM" ∧
  SafeIdentifier "alice.smith@EXAMPLE.COM".
Proof.
  assert (H : validateIdentifier (JStr "alice.smith@EXAMPLE.COM") "username"
              = inr "alice.smith@EXAMPLE.COM") by reflexivity.
  split; [exact H|].
  destruct (validateIdentifier_agrees (JStr "alice.smith@EXAMPLE.COM") "username")
    as [Hiff Hthen].
  split; [exact (proj1 (Hthen _ H)) | exact (proj2 (proj1 (Hiff _) H))].
Defined.

Lemma checkHostnames_spec String_of name items : ∀ hs,
  checkHostnames String_of name items = inr hs ↔
  items = JStr <$> hs ∧ Forall SafeHostname hs.
Proof.
  induction items as [|item items IH]; intros hs.
  - simpl. split.
    + intros [= <-]. by split.
    + intros [Heq _]. by destruct hs.
  - cbn [checkHostnames].
    destruct item as [| | | |h| |];
      try (split; [done | intros [Heq _]; by destruct hs]).
    destruct (SAFE_HOSTNAME_test h) eqn:Htest; simpl.
    + destruct (checkHostnames String_of name items) as [e|hs'] eqn:Hrest.
      * split; [done|]. intros [Heq Hall]. destruct hs as [|h' hs]; [done|].
        injection Heq as _ Hitems. apply Forall_cons in Hall as [_ Hall].
        pose proof (proj2 (IH hs) (conj Hitems Hall)) as H.
        discriminate H.
      * split.
        -- intros [= <-]. destruct (proj1 (IH hs') eq_refl) as [Hitems Hall].
           rewrite Hitems.
           split; [done|]. constructor; [by apply SAFE_HOSTNAME_test_spec | done].
        -- intros [Heq Hall]. destruct hs as [|h' hs]; [done|].
           injection Heq as -> Hitems. apply Forall_cons in Hall as [_ Hall].
           pose proof (proj2 (IH hs) (conj Hitems Hall)) as H.
           by injection H as ->.
    + split; [done|]. intros [Heq Hall]. destruct hs as [|h' hs]; [done|].
      injection Heq as -> _. apply Forall_cons in Hall as [Hh%SAFE_HOSTNAME_test_spec _].
      congruence.
Qed.

Lemma validateHostnames_accepts String_of value name hs :
  (validateHostnames String_of value name = inr hs ↔
   hs ≠ [] ∧ value = JArr (JStr <$> hs) ∧ Forall SafeHostname hs) ∧
  (validateHostnames String_of value name = inr hs →
   Forall (λ h, SafeIdentifier h ∧ "@"%char ∉ list_ascii_of_string h) hs).
Proof.
  assert (Hiff : validateHostnames String_of value name = inr hs ↔
                 hs ≠ [] ∧ value = JArr (JStr <$> hs) ∧ Forall SafeHostname hs).
  { unfold validateHostnames.
    destruct value as [| | | | |items|]; try (split; [done | by intros (_ & ? & _)]).
    destruct items as [|item items].
    - split; [done|]. intros (Hne & Heq & _). by destruct hs.
    - rewrite checkHostnames_spec. split.
      + intros [Heq Hall]. split; [by destruct hs|]. by rewrite Heq.
      + by intros (_ & [= ->] & Hall). }
  split; [exact Hiff|].
  intros (_ & _ & Hall)%Hiff. eapply Forall_impl; [exact Hall|].
  intros h Hh. apply SAFE_HOSTNAME_test_spec in Hh.
  destruct h as [|c h]; [done|].
  destruct (hostnameStar_classStar (String c h) Hh) as [Hclass Hat].
  split; [|done]. by apply SAFE_test_spec.
Qed.

(** X18: [validateHostnames] returns the host names exactly when the value is
    a non-empty array whose elements are all strings that are non-empty and
    made of letters, digits, dot, underscore and hyphen; every name it lets
    through is also a safe identifier and holds no at-sign. *)
Theorem validateHostnames_spec String_of value name hs :
  (validateHostnames String_of value name = inr hs ↔
   hs ≠ [] ∧ value = JArr (JStr <$> hs) ∧ Forall SafeHostname hs) ∧
  (validateHostnames String_of value name = inr hs →
   Forall (λ h, SafeIdentifier h ∧ "@"%char ∉ list_ascii_of_string h) hs).
Proof. apply validateHostnames_accepts. Qed.

Lemma validateHostnames_spec_witness :
  validateHostnames Desk.noString (JStrings ["h1"; "h2"]) "hosts" = inr ["h1"; "h2"] ∧
  Forall (λ h, SafeIdentifier h ∧ "@"%char ∉ list_ascii_of_string h) ["h1"; "h2"].
Proof.
  assert (H : validateHostnames Desk.noString (JStrings ["h1"; "h2"]) "hosts"
              = inr ["h1"; "h2"]) by reflexivity.
  split; [exact H|].
  exact (proj2 (validateHostnames_spec Desk.noString _ "hosts" _) H).
Defined.

Lemma Map_set_fresh {V : Type} key (v : V) m :
  key ∉ m.*1 → Map_set key v m = (m ++ [(key, v)])%list.
Proof.
  induction m as [|[k old] m IH]; intros Hfresh; [done|].
  simpl. destruct (decide (k = key)) as [->|Hne].
  - exfalso. apply Hfresh. by left.
  - f_equal. apply IH. intros Hin. apply Hfresh. by right.
Qed.

Section InvalidateLoop.
Variable ssh : SSHManager.t.
Variable ssh2 : nat → Channel.
Variable username : string.
Hypothesis username_safe : SafeIdentifier username.

Let rep (i : nat) (host : string) : HostReport :=
  invalidateReport username
    (SSHManager.settled
       (SSHManager.executeCommand ssh (ssh2 i) host ("sudo sss_cache -u " +:+ username) None)).

Lemma invalidateLoop_cons i host rest acc :
  invalidateLoop ssh ssh2 username i (host :: rest) acc =
    let next :=
      invalidateLoop ssh ssh2 username (S i) rest (Map_set host (rep i host) acc) in
    ((SSHManager.connected
        (SSHManager.executeCommand ssh (ssh2 i) host
           ("sudo sss_cache -u " +:+ username) None) ++ next.1)%list,
     next.2).
Proof.
  cbn [invalidateLoop]. unfold SSHManager.invalidateUser.
  rewrite validateShellSafe_accepts by done. fold (rep i host).
  by destruct (invalidateLoop _ _ _ _ _ _).
Qed.

Lemma invalidateLoop_spec hosts : ∀ i acc,
  ConnectConfig.host <$> (invalidateLoop ssh ssh2 username i hosts acc).1 = hosts ∧
  (NoDup (acc.*1 ++ hosts) →
   (invalidateLoop ssh ssh2 username i hosts acc).2 =
     (acc ++ imap (λ k host, (host, rep (i + k) host)) hosts)%list).
Proof.
  induction hosts as [|host rest IH]; intros i acc.
  { simpl. split; [done|]. intros _. by rewrite app_nil_r. }
  rewrite invalidateLoop_cons. cbv zeta. cbn [fst snd].
  destruct (IH (S i) (Map_set host (rep i host) acc)) as [IHconn IHres].
  split.
  - rewrite fmap_app, IHconn. done.
  - intros Hnodup.
    assert (Hfresh : host ∉ acc.*1).
    { apply NoDup_app in Hnodup as (_ & Hdisj & _).
      intros Hin. apply (Hdisj host Hin). by left. }
    rewrite Map_set_fresh in IHres |- * by done.
    rewrite IHres.
    + rewrite <- app_assoc. f_equal. rewrite imap_cons. cbn [app].
      rewrite Nat.add_0_r. f_equal. apply imap_ext. intros k h _. cbn.
      by rewrite Nat.add_succ_r.
    + rewrite fmap_app, <- app_assoc. done.
Qed.

End InvalidateLoop.

(** X19: the tool [freeipa_invalidate_user_cache] opens no connection unless
    both the host list and the user name pass validation: whenever it fails
    it has connected to nothing, and a user name outside the safe alphabet
    makes it fail. With valid parameters it connects to the hosts one after
    the other in the order given, reports [hosts.length] as [totalHosts], and
    for distinct host names lists one report per host in that order, built
    from what [executeCommand] settled with for the [sss_cache -u] command. *)
Theorem invalidateUserCache_flow String_of ssh ssh2 params :
  let out := invalidateUserCache String_of ssh ssh2 params in
  (∀ e, out.2 = inl e → out.1 = []) ∧
  (∀ s, param params "username" = JStr s → ¬ SafeIdentifier s → ∃ e, out = ([], inl e)) ∧
  (∀ hosts username,
     param params "hosts" = JArr (JStr <$> hosts) →
     hosts ≠ [] →
     Forall SafeHostname hosts →
     param params "username" = JStr username →
     SafeIdentifier username →
     ∃ results,
       out.2 = inr (invalidateResult results username (length hosts)) ∧
       ConnectConfig.host <$> out.1 = hosts ∧
       (NoDup hosts →
        results =
          imap (λ i host,
                  (host,
                   invalidateReport username
                     (SSHManager.settled
                        (SSHManager.executeCommand ssh (ssh2 i) host
                           ("sudo sss_cache -u " +:+ username) None)))) hosts)).
Proof.
  intros out. unfold out, invalidateUserCache. split; [|split].
  - intros e. destruct (validateHostnames _ _ _) as [e1|hosts]; [done|].
    destruct (validateIdentifier _ _) as [e2|username]; [done|].
    by destruct (invalidateLoop _ _ _ _ _ _).
  - intros s Hs Hunsafe. destruct (validateHostnames _ _ _) as [e1|hosts]; [by eexists|].
    destruct (validateIdentifier _ _) as [e2|username] eqn:Hid; [by eexists|].
    apply (proj1 (validateIdentifier_accepts _ _)) in Hid as [Heq Hsafe].
    assert (Hsame : JStr s = JStr username) by (rewrite <- Hs; exact Heq).
    by injection Hsame as ->.
  - intros hosts username Hhosts Hne Hall Huser Hsafe.
    rewrite (proj2 (proj1 (validateHostnames_accepts String_of _ "hosts" hosts))
               (conj Hne (conj Hhosts Hall))).
    rewrite (proj2 (proj1 (validateIdentifier_accepts _ "username") username)
               (conj Huser Hsafe)).
    destruct (invalidateLoop_spec ssh ssh2 username Hsafe hosts 0 []) as [Hconn Hres].
    destruct (invalidateLoop _ _ _ _ _ _) as [connected results]. cbn [fst snd] in *.
    exists results. split; [done|]. split; [done|].
    intros Hnodup. by rewrite Hres.
Qed.

Lemma invalidateUserCache_flow_witness :
  (∃ e, invalidateUserCache Desk.noString Fleet.manager (λ _, Fleet.oneUp)
          Desk.injectionParams = ([], inl e)) ∧
  ∃ results,
    (invalidateUserCache Desk.noString Fleet.manager (λ _, Fleet.oneUp)
       Desk.invalidateParams).2 = inr (invalidateResult results "alice" 2) ∧
    ConnectConfig.host <$>
      (invalidateUserCache Desk.noString Fleet.manager (λ _, Fleet.oneUp)
         Desk.invalidateParams).1 = ["h1"; "h2"].
Proof.
  destruct (invalidateUserCache_flow Desk.noString Fleet.manager (λ _, Fleet.oneUp)
              Desk.injectionParams) as (_ & Hunsafe & _).
  destruct (invalidateUserCache_flow Desk.noString Fleet.manager (λ _, Fleet.oneUp)
              Desk.invalidateParams) as (_ & _ & Hvalid).
  split.
  - apply (Hunsafe "alice; rm -rf /"); [reflexivity|].
    intros Hs%SAFE_test_spec. discriminate Hs.
  - destruct (Hvalid ["h1"; "h2"] "alice") as (results & Hres & Hconn & _).
    + reflexivity.
    + discriminate.
    + repeat constructor; by apply SAFE_HOSTNAME_test_spec.
    + reflexivity.
    + by apply SAFE_test_spec.
    + exists results. split; [exact Hres | exact Hconn].
Defined.

End IndexFacts.

(** * Properties of the configuration loader *)

Module ConfigFacts.
Import ConfigLoader.

Lemma envSet_nonempty env name s : envSet env name = Some s → s ≠ "".
Proof.
  unfold envSet. destruct (env !! name) as [v|]; [|done].
  destruct (decide (v = "")); [done|]. by intros [= <-].
Qed.

Lemma lookup_fromEnv env name key target k :
  fromEnv env name key target !! k =
    if decide (key = k)
    then match envSet env name with
         | Some s => Some (JStr s)
         | None => target !! k
         end
    else target !! k.
Proof.
  unfold fromEnv. destruct (envSet env name) as [s|]; [|by destruct (decide _)].
  destruct (decide (key = k)) as [->|Hne]; [apply lookup_insert_eq|].
  by apply lookup_insert_ne.
Qed.

Lemma lookup_mergeSection section target k :
  mergeSection section target !! k =
    if decide (k = "password") then target !! k
    else if truthy section
         then match ownEnumerable section !! k with
              | Some v => Some v
              | None => target !! k
              end
         else target !! k.
Proof.
  unfold mergeSection. destruct (truthy section); [|by destruct (decide _)].
  destruct (decide (k = "password")) as [->|Hne].
  - apply lookup_union_r, lookup_delete_eq.
  - destruct (ownEnumerable section !! k) as [v|] eqn:Hk.
    + apply lookup_union_Some_l. by rewrite lookup_delete_ne.
    + apply lookup_union_r. by rewrite lookup_delete_ne.
Qed.

(** The maps of a merged configuration, whatever the document. *)
Lemma mergeConfig_maps yamlConfig env config :
  mergeConfig yamlConfig env = inr config →
  freeipa config =
    fromEnv env "FREEIPA_USERNAME" "username"
      (fromEnv env "FREEIPA_SERVER" "server"
         (fromEnv env "FREEIPA_PASSWORD" "password"
            (mergeSection (member yamlConfig "freeipa") (freeipa defaultConfig)))) ∧
  ssh config =
    fromEnv env "SSH_USERNAME" "username"
      (fromEnv env "SSH_PASSWORD" "password"
         (mergeSection (member yamlConfig "ssh") (ssh defaultConfig))) ∧
  domain (sssd config) =
    match envSet env "SSSD_DOMAIN" with
    | Some s => JStr s
    | None =>
        if truthy (member yamlConfig "sssd")
           && truthy (member (member yamlConfig "sssd") "domain")
        then member (member yamlConfig "sssd") "domain"
        else JStr "example.com"
    end.
Proof.
  unfold mergeConfig.
  destruct yamlConfig; try done; intros [= <-]; cbn [freeipa ssh sssd];
    (split; [done|]; split; [done|]);
    destruct (envSet env "SSSD_DOMAIN"); cbn [domain]; try done;
    destruct (truthy (member _ "sssd")); cbn [domain andb]; try done.
Qed.

Lemma merged_passwords yamlConfig env config :
  mergeConfig yamlConfig env = inr config →
  freeipa config !! "password" =
    Some (JStr (default "" (envSet env "FREEIPA_PASSWORD"))) ∧
  ssh config !! "password" =
    Some (JStr (default "" (envSet env "SSH_PASSWORD"))).
Proof.
  intros (-> & -> & _)%mergeConfig_maps. split.
  - rewrite !lookup_fromEnv, lookup_mergeSection.
    rewrite !decide_False, !decide_True by done.
    by destruct (envSet env "FREEIPA_PASSWORD").
  - rewrite !lookup_fromEnv, lookup_mergeSection.
    rewrite !decide_False, !decide_True by done.
    by destruct (envSet env "SSH_PASSWORD").
Qed.

(** X20: passwords come from the environment only. Whatever the YAML
    document holds, a password of its own included, the merged configuration
    has as FreeIPA password the value of [FREEIPA_PASSWORD] and as SSH
    password the value of [SSH_PASSWORD], and the empty string when the
    variable is unset or empty. *)
Theorem mergeConfig_passwords_from_env yamlConfig env config :
  mergeConfig yamlConfig env = inr config →
  freeipa config !! "password" =
    Some (JStr (default "" (envSet env "FREEIPA_PASSWORD"))) ∧
  ssh config !! "password" =
    Some (JStr (default "" (envSet env "SSH_PASSWORD"))).
Proof. apply merged_passwords. Qed.

Lemma mergeConfig_passwords_from_env_witness :
  ∃ config,
    mergeConfig Desk.yamlWithPasswords Desk.envWithPasswords = inr config ∧
    freeipa config !! "password" = Some (JStr "from-env") ∧
    ssh config !! "password" = Some (JStr "ssh-env").
Proof.
  eexists. split; [reflexivity|].
  exact (mergeConfig_passwords_from_env Desk.yamlWithPasswords Desk.envWithPasswords
           _ eq_refl).
Defined.

(** X21: for the server the order is environment, then YAML, then default:
    a non-empty [FREEIPA_SERVER] wins; otherwise any [server] key of a truthy
    [freeipa] section of the document is taken as it is, even when its value
    is empty or null; otherwise the server is [ipa.example.com]. The SSSD
    domain differs: [SSSD_DOMAIN] wins, but a YAML domain is taken only when
    it is truthy. *)
Theorem mergeConfig_precedence yamlConfig env config :
  mergeConfig yamlConfig env = inr config →
  freeipa config !! "server" =
    Some match envSet env "FREEIPA_SERVER" with
         | Some s => JStr s
         | None =>
             if truthy (member yamlConfig "freeipa")
             then default (JStr "ipa.example.com")
                    (ownEnumerable (member yamlConfig "freeipa") !! "server")
             else JStr "ipa.example.com"
         end ∧
  domain (sssd config) =
    match envSet env "SSSD_DOMAIN" with
    | Some s => JStr s
    | None =>
        if truthy (member yamlConfig "sssd")
           && truthy (member (member yamlConfig "sssd") "domain")
        then member (member yamlConfig "sssd") "domain"
        else JStr "example.com"
    end.
Proof.
  intros (-> & _ & Hdomain)%mergeConfig_maps. split; [|exact Hdomain].
  rewrite !lookup_fromEnv, lookup_mergeSection.
  rewrite !decide_False, !decide_True by done.
  destruct (envSet env "FREEIPA_SERVER"); [done|].
  destruct (truthy (member yamlConfig "freeipa")); [|done].
  by destruct (ownEnumerable (member yamlConfig "freeipa") !! "server").
Qed.

Lemma mergeConfig_precedence_witness :
  ∃ config,
    mergeConfig Desk.yamlWithPasswords Desk.envWithPasswords = inr config ∧
    freeipa config !! "server" = Some (JStr "ipa.corp.test") ∧
    domain (sssd config) = JStr "example.com".
Proof.
  eexists. split; [reflexivity|].
  exact (mergeConfig_precedence Desk.yamlWithPasswords Desk.envWithPasswords _ eq_refl).
Defined.

Lemma elem_of_if_singleton (b : bool) (x y : string) :
  x ∈ (if b then [y] else []) ↔ b = true ∧ x = y.
Proof.
  destruct b.
  - rewrite list_elem_of_singleton. by split; [|intros [_ ?]].
  - split; [by intros ?%elem_of_nil | by intros [? _]].
Qed.

Lemma missing_password env target name :
  target !! "password" = Some (JStr (default "" (envSet env name))) →
  missing target "password" = true ↔ envSet env name = None.
Proof.
  intros Hpw. unfold missing. rewrite Hpw. simpl.
  destruct (envSet env name) as [s|] eqn:Hs; simpl.
  - apply envSet_nonempty in Hs. rewrite bool_decide_eq_false_2 by done.
    by split.
  - by split.
Qed.

(** X22: [loadConfig] fails only when the YAML file parsed to [null] or
    [undefined]; a missing or unreadable file counts as an empty document.
    When it returns, the printed errors ask for [FREEIPA_PASSWORD] exactly
    when that variable is unset or empty, and for [SSH_PASSWORD] likewise,
    whatever the file says. *)
Theorem loadConfig_password_errors file env :
  ((∃ e, loadConfig file env = inl e) ↔ file = Parsed JNull ∨ file = Parsed JUndefined) ∧
  (∀ config errors, loadConfig file env = inr (config, errors) →
     ("FREEIPA_PASSWORD environment variable is required" ∈ errors ↔
      envSet env "FREEIPA_PASSWORD" = None) ∧
     ("SSH_PASSWORD environment variable is required" ∈ errors ↔
      envSet env "SSH_PASSWORD" = None)).
Proof.
  split.
  - unfold loadConfig, mergeConfig. split.
    + intros [e He]. destruct file as [|message|document]; [done..|].
      destruct document; try done; [by right | by left].
    + by intros [-> | ->]; eexists.
  - intros config errors. unfold loadConfig.
    destruct (mergeConfig (loadYamlConfig file) env) as [e|c] eqn:Hmerge; [done|].
    intros [= <- <-].
    destruct (merged_passwords _ _ _ Hmerge) as [Hipa Hssh].
    unfold validateConfig. rewrite !elem_of_app, !elem_of_if_singleton.
    rewrite (missing_password env _ "FREEIPA_PASSWORD" Hipa).
    rewrite (missing_password env _ "SSH_PASSWORD" Hssh).
    split; split.
    + intros [[H _]|[[_ H]|[[_ H]|[[_ H]|[_ H]]]]]; done.
    + intros H. by left.
    + intros [[_ H]|[[H _]|[[_ H]|[[_ H]|[_ H]]]]]; done.
    + intros H. right. by left.
Qed.

Lemma loadConfig_password_errors_witness :
  ∃ config errors,
    loadConfig (Parsed Desk.yamlWithPasswords) ∅ = inr (config, errors) ∧
    "FREEIPA_PASSWORD environment variable is required" ∈ errors ∧
    "SSH_PASSWORD environment variable is required" ∈ errors.
Proof.
  destruct (loadConfig (Parsed Desk.yamlWithPasswords) ∅) as [e|[config errors]] eqn:Hload.
  - discriminate Hload.
  - exists config, errors. split; [reflexivity|].
    destruct (proj2 (loadConfig_password_errors (Parsed Desk.yamlWithPasswords) ∅)
                config errors Hload) as [Hipa Hssh].
    split; [apply Hipa | apply Hssh]; reflexivity.
Defined.

End ConfigFacts.
